(** * fabric-client-wrapper: the multi-organization coordination layer

    A shallow embedding of [src/lib/MultiUserClient.js] (the fan-out
    operations [joinChannel] and [installChaincode]) and of the
    [ChannelSetupServer] class (the rendezvous server), with the
    properties the specification states about them.

    JavaScript arrays are lists, strings are [string], optional fields
    are [option]s.  Mutable object state is passed explicitly; what a
    handler does to the outside (socket writes, callback invocations) is
    returned as a list of effects. *)

From Stdlib Require Import List String Ascii Bool Arith NArith ZArith Lia.
From Stdlib Require Import Permutation.
Import ListNotations.
Open Scope string_scope.
Open Scope list_scope.
Open Scope nat_scope.

(** ** JavaScript and lodash array primitives *)

Module Js.

(** [Array.prototype.includes] on an array of strings. *)
Definition includes (x : string) (l : list string) : bool :=
  existsb (String.eqb x) l.

(** The loop shared by lodash's [baseUniq] and [baseIntersection]:
    walk the array, push a value onto [result] when it is not there
    yet and it passes [keep]. *)
Fixpoint collect (keep : string -> bool) (result l : list string)
  : list string :=
  match l with
  | [] => result
  | x :: t =>
      if negb (includes x result) && keep x
      then collect keep (result ++ [x]) t
      else collect keep result t
  end.

(** [_.uniq]: first occurrences, in order. *)
Definition uniq (l : list string) : list string :=
  collect (fun _ => true) [] l.

(** lodash's [intersection(array, other)]: the unique values of
    [array] that [other] includes, in the order of [array]. *)
Definition intersection (array other : list string) : list string :=
  collect (fun x => includes x other) [] array.

(** [lodash/fp]'s [intersection] is the curried, argument-swapped
    wrapper: [_.intersection(a)(b)] calls [intersection(b, a)]. *)
Definition fp_intersection (a b : list string) : list string :=
  intersection b a.

(** [String.prototype.split] with a one-character separator: always at
    least one piece, the empty string splits into one empty piece. *)
Fixpoint split (sep : ascii) (s : string) : list string :=
  match s with
  | EmptyString => [EmptyString]
  | String c rest =>
      if Ascii.eqb c sep then EmptyString :: split sep rest
      else match split sep rest with
           | [] => [String c EmptyString]
           | w :: ws => String c w :: ws
           end
  end.

(** [Array.prototype.indexOf] on an array of numbers: -1 when absent. *)
Fixpoint indexOf (x : nat) (l : list nat) : Z :=
  match l with
  | [] => (-1)%Z
  | y :: t =>
      if Nat.eqb x y then 0%Z
      else let i := indexOf x t in
           if (i <? 0)%Z then (-1)%Z else (i + 1)%Z
  end.

(** [Array.prototype.splice(start, deleteCount)]: a negative [start]
    counts from the end, and is clamped to the array. *)
Definition splice {A} (l : list A) (start : Z) (deleteCount : nat) : list A :=
  let len := Z.of_nat (List.length l) in
  let from :=
    if (start <? 0)%Z then Z.to_nat (Z.max (len + start) 0)
    else Z.to_nat (Z.min start len) in
  firstn from l ++ skipn (from + deleteCount) l.

(** lodash's mutating [remove(array, predicate)]: the removed elements
    and what is left of the array, both in their order. *)
Definition remove {A} (array : list A) (predicate : A -> bool)
  : list A * list A :=
  (filter predicate array, filter (fun x => negb (predicate x)) array).

End Js.

(** ** The fabric-client objects the two classes work on *)

Module Fabric.

(** A channel peer is either a plain fabric-client [Peer] or an
    [FcwPeer], the wrapper's peer that also knows its organization and
    the organizations allowed to administer it. *)
Inductive Peer : Type :=
| PlainPeer (url : string)
| FcwPeer (url : string) (mspId : string) (adminMspIds : list string).

(** Modelled from the spec: [isFcwPeer] of [fabric-client-extended] is
    not among the sources; it tells the wrapper's peers, the ones with
    an admin-owner set, from plain ones. *)
Definition isFcwPeer (p : Peer) : bool :=
  match p with
  | FcwPeer _ _ _ => true
  | PlainPeer _ => false
  end.

(** [peer.getAdminMspIds()]; [None] when the object has no such method. *)
Definition getAdminMspIds (p : Peer) : option (list string) :=
  match p with
  | FcwPeer _ _ admins => Some admins
  | PlainPeer _ => None
  end.

(** [peer.getMspId()]; [None] when the object has no such method. *)
Definition getMspId (p : Peer) : option string :=
  match p with
  | FcwPeer _ m _ => Some m
  | PlainPeer _ => None
  end.

Record Channel : Type := mkChannel {
  channelName : string;
  getPeers : list Peer
}.

(** Opaque response payloads ([Object] in the Flow types). *)
Definition Obj : Type := string.

Definition Error : Type := string.

(** A promise, seen from outside: it never settles, or it settles at
    some instant after the call, rejected or fulfilled. *)
Inductive Outcome (V : Type) : Type :=
| Rejected (e : Error)
| Fulfilled (v : V).
Arguments Rejected {V} e.
Arguments Fulfilled {V} v.

Inductive Promise (V : Type) : Type :=
| Never
| Settles (at_ : nat) (o : Outcome V).
Arguments Never {V}.
Arguments Settles {V} at_ o.

(** A closure [() => Promise<any>] handed out by a sub-operation; its
    invocations are observable under its [thunkId]. *)
Record Thunk : Type := mkThunk {
  thunkId : nat;
  thunkResult : Promise Obj
}.

Record JoinChannelOpts : Type := mkJoinChannelOpts {
  targets : option (list Peer);
  genesisBlock : option Obj;
  timeout : option N
}.

Record ChaincodeInstallRequest : Type := mkChaincodeInstallRequest {
  cir_targets : list Peer;
  chaincodeId : string;
  chaincodePath : string;
  chaincodeVersion : string;
  chaincodePackage : option Obj;
  chaincodeType : option string
}.

(** What [UserClient.joinChannel] resolves to. *)
Record JoinChannelResponse : Type := mkJoinChannelResponse {
  jcr_data : list Obj;
  jcr_wait : Thunk
}.

(** What [UserClient.installChaincode] resolves to. *)
Record InstallChaincodeResponse : Type := mkInstallChaincodeResponse {
  icr_data : Obj
}.

(** A single-organization client.  [UserClient.js] is not among the
    sources: its two operations are taken as they are given. *)
Record UserClient : Type := mkUserClient {
  mspId : string;
  uc_joinChannel : Channel -> JoinChannelOpts -> Promise JoinChannelResponse;
  uc_installChaincode :
    ChaincodeInstallRequest -> option N -> Promise InstallChaincodeResponse
}.

(** The earliest rejection among promises, the first in the array among
    those of one instant. *)
Fixpoint firstRejection {V} (ps : list (Promise V)) : option (nat * Error) :=
  match ps with
  | [] => None
  | p :: t =>
      match p, firstRejection t with
      | Settles n (Rejected e), Some (m, e') =>
          if m <? n then Some (m, e') else Some (n, e)
      | Settles n (Rejected e), None => Some (n, e)
      | _, r => r
      end
  end.

(** The values of promises that all fulfil, with the instant the last
    one does; [None] when one of them does not fulfil. *)
Fixpoint allFulfilled {V} (ps : list (Promise V)) : option (nat * list V) :=
  match ps with
  | [] => Some (0, [])
  | Settles n (Fulfilled v) :: t =>
      match allFulfilled t with
      | Some (m, vs) => Some (Nat.max n m, v :: vs)
      | None => None
      end
  | _ :: _ => None
  end.

(** [Promise.all]: rejected as soon as one input rejects, with that
    reason; fulfilled with all the values once every input fulfilled;
    pending for ever otherwise. *)
Definition Promise_all {V} (ps : list (Promise V)) : Promise (list V) :=
  match firstRejection ps with
  | Some (n, e) => Settles n (Rejected e)
  | None =>
      match allFulfilled ps with
      | Some (n, vs) => Settles n (Fulfilled vs)
      | None => Never
      end
  end.

End Fabric.

(** ** [MultiUserClient]: the fan-out operations *)

Module MultiUserClient.
Import Fabric.

Record MultiUserClient : Type := mkMultiUserClient {
  userClients : list UserClient;
  mainUserClient : option UserClient
}.

(** [constructor(userClients, mainUserClient?)]: the first client is the
    main one when none is named. *)
Definition constructor (ucs : list UserClient) (main : option UserClient)
  : MultiUserClient :=
  match main with
  | Some m => mkMultiUserClient ucs (Some m)
  | None => mkMultiUserClient ucs (nth_error ucs 0)
  end.

(** What the operations do to the outside: they call a client's own
    operation, or invoke the [wait] closure of a response. *)
Inductive Effect : Type :=
| CallJoinChannel (uc : UserClient) (channel : Channel) (opts : JoinChannelOpts)
| CallInstallChaincode (uc : UserClient) (req : ChaincodeInstallRequest)
    (timeout : option N)
| InvokeWait (id : nat).

(** The aggregate object an operation resolves to; [wait] is [None]
    when the object has no such property. *)
Record Aggregate (D : Type) : Type := mkAggregate {
  data : D;
  wait : option (unit -> list Effect * Promise (list Obj))
}.
Arguments mkAggregate {D} data wait.
Arguments data {D} a.
Arguments wait {D} a.

(** [peer.getAdminMspIds().includes(mspId)], the predicate of both
    [remove] calls.  The peers it is applied to passed [isFcwPeer]. *)
Definition administers (orgMspId : string) (peer : Peer) : bool :=
  match getAdminMspIds peer with
  | Some ids => Js.includes orgMspId ids
  | None => false
  end.

(** [{...joinChannelOpts, targets: ownedPeers}] *)
Definition ownedPeersJoinChannelOpts (joinChannelOpts : option JoinChannelOpts)
  (ownedPeers : list Peer) : JoinChannelOpts :=
  match joinChannelOpts with
  | Some o => mkJoinChannelOpts (Some ownedPeers) (genesisBlock o) (timeout o)
  | None => mkJoinChannelOpts (Some ownedPeers) None None
  end.

(** [{...chaincodeInstallRequest, targets: ownedPeers}] *)
Definition ownedPeersChaincodeInstallRequest (r : ChaincodeInstallRequest)
  (ownedPeers : list Peer) : ChaincodeInstallRequest :=
  mkChaincodeInstallRequest ownedPeers (chaincodeId r) (chaincodePath r)
    (chaincodeVersion r) (chaincodePackage r) (chaincodeType r).

(** The [forEach] of [joinChannel] (lines 149-160): [peers] is the
    working copy that [remove] shrinks, [joinChannelCalls] the calls
    pushed so far, each kept with the client and the options it got. *)
Fixpoint joinChannel_forEach (joinChannelOpts : option JoinChannelOpts)
  (ucs : list UserClient) (peers : list Peer)
  (joinChannelCalls : list (UserClient * JoinChannelOpts))
  : list (UserClient * JoinChannelOpts) :=
  match ucs with
  | [] => joinChannelCalls
  | userClient :: rest =>
      let (ownedPeers, peers') :=
        Js.remove peers (administers (mspId userClient)) in
      if Nat.ltb 0 (List.length ownedPeers)
      then joinChannel_forEach joinChannelOpts rest peers'
             (joinChannelCalls
                ++ [(userClient,
                     ownedPeersJoinChannelOpts joinChannelOpts ownedPeers)])
      else joinChannel_forEach joinChannelOpts rest peers' joinChannelCalls
  end.

Definition joinChannelCalls (this : MultiUserClient) (channel : Channel)
  (joinChannelOpts : option JoinChannelOpts)
  : list (UserClient * JoinChannelOpts) :=
  let peers := filter isFcwPeer (getPeers channel) in
  joinChannel_forEach joinChannelOpts (userClients this) peers [].

(** [joinChannel] (lines 140-167): the calls it made and the promise it
    returns. *)
Definition joinChannel (this : MultiUserClient) (channel : Channel)
  (joinChannelOpts : option JoinChannelOpts)
  : list Effect * Promise (Aggregate (list (list Obj))) :=
  let calls := joinChannelCalls this channel joinChannelOpts in
  (map (fun c => CallJoinChannel (fst c) channel (snd c)) calls,
   match Promise_all (map (fun c => uc_joinChannel (fst c) channel (snd c)) calls)
   with
   | Never => Never
   | Settles n (Rejected e) => Settles n (Rejected e)
   | Settles n (Fulfilled joinChannelResponses) =>
       Settles n (Fulfilled
         (mkAggregate
            (map jcr_data joinChannelResponses)
            (Some (fun _ =>
               (map (fun r => InvokeWait (thunkId (jcr_wait r)))
                    joinChannelResponses,
                Promise_all
                  (map (fun r => thunkResult (jcr_wait r))
                       joinChannelResponses))))))
   end).

(** The [forEach] of [installChaincode] (lines 189-200). *)
Fixpoint installChaincode_forEach (chaincodeInstallRequest : ChaincodeInstallRequest)
  (ucs : list UserClient) (peers : list Peer)
  (installChaincodeCalls : list (UserClient * ChaincodeInstallRequest))
  : list (UserClient * ChaincodeInstallRequest) :=
  match ucs with
  | [] => installChaincodeCalls
  | userClient :: rest =>
      let (ownedPeers, peers') :=
        Js.remove peers (administers (mspId userClient)) in
      if Nat.ltb 0 (List.length ownedPeers)
      then installChaincode_forEach chaincodeInstallRequest rest peers'
             (installChaincodeCalls
                ++ [(userClient,
                     ownedPeersChaincodeInstallRequest chaincodeInstallRequest
                       ownedPeers)])
      else installChaincode_forEach chaincodeInstallRequest rest peers'
             installChaincodeCalls
  end.

Definition installChaincodeCalls (this : MultiUserClient)
  (chaincodeInstallRequest : ChaincodeInstallRequest)
  : list (UserClient * ChaincodeInstallRequest) :=
  let peers := filter isFcwPeer (cir_targets chaincodeInstallRequest) in
  installChaincode_forEach chaincodeInstallRequest (userClients this) peers [].

(** [installChaincode] (lines 181-205): the object it resolves to has
    [data] only. *)
Definition installChaincode (this : MultiUserClient)
  (chaincodeInstallRequest : ChaincodeInstallRequest) (timeout : option N)
  : list Effect * Promise (Aggregate (list Obj)) :=
  let calls := installChaincodeCalls this chaincodeInstallRequest in
  (map (fun c => CallInstallChaincode (fst c) (snd c) timeout) calls,
   match Promise_all (map (fun c => uc_installChaincode (fst c) (snd c) timeout)
                          calls)
   with
   | Never => Never
   | Settles n (Rejected e) => Settles n (Rejected e)
   | Settles n (Fulfilled installChaincodeResponses) =>
       Settles n (Fulfilled
         (mkAggregate (map icr_data installChaincodeResponses) None))
   end).

(** The partitions a fan-out operation hands out: for each call it
    makes, in call order, the client called and the [targets] it got. *)
Definition joinChannelPartitions (this : MultiUserClient) (channel : Channel)
  (joinChannelOpts : option JoinChannelOpts) : list (UserClient * list Peer) :=
  map (fun c => (fst c, match targets (snd c) with Some t => t | None => [] end))
      (joinChannelCalls this channel joinChannelOpts).

Definition installChaincodePartitions (this : MultiUserClient)
  (chaincodeInstallRequest : ChaincodeInstallRequest)
  : list (UserClient * list Peer) :=
  map (fun c => (fst c, cir_targets (snd c)))
      (installChaincodeCalls this chaincodeInstallRequest).

(** The admin-owner set of a node; a plain peer has none. *)
Definition adminOwners (p : Peer) : list string :=
  match getAdminMspIds p with
  | Some ids => ids
  | None => []
  end.

Definition isInvokeWait (e : Effect) : bool :=
  match e with
  | InvokeWait _ => true
  | _ => false
  end.

(** What [remove] returns at each turn of either [forEach]: the peers
    each client takes, client by client, empty takes included. *)
Fixpoint ownedPeersPerClient (ucs : list UserClient) (peers : list Peer)
  : list (UserClient * list Peer) :=
  match ucs with
  | [] => []
  | userClient :: rest =>
      let (ownedPeers, peers') :=
        Js.remove peers (administers (mspId userClient)) in
      (userClient, ownedPeers) :: ownedPeersPerClient rest peers'
  end.

Definition nonEmpty (x : UserClient * list Peer) : bool :=
  Nat.ltb 0 (List.length (snd x)).

(** The properties of a partition of [targets] among [ucs]: each part
    is taken from the targets; two parts share no node; a node that some
    client may administer is in one part only, that of the first such
    client; a node that no client may administer is in no part. *)
Definition wellPartitioned (ucs : list UserClient) (targets : list Peer)
  (parts : list (UserClient * list Peer)) : Prop :=
  (forall x p, In x parts -> In p (snd x) -> In p targets)
  /\ (forall i j a b p,
        i <> j -> nth_error parts i = Some a -> nth_error parts j = Some b ->
        In p (snd a) -> ~ In p (snd b))
  /\ (forall p,
        In p targets ->
        (exists uc, In uc ucs /\ In (mspId uc) (adminOwners p)) ->
        exists i before uc after part,
          ucs = before ++ uc :: after
          /\ (forall c, In c before -> ~ In (mspId c) (adminOwners p))
          /\ In (mspId uc) (adminOwners p)
          /\ nth_error parts i = Some (uc, part)
          /\ In p part
          /\ forall j x, nth_error parts j = Some x -> In p (snd x) -> j = i)
  /\ (forall p,
        (forall uc, In uc ucs -> ~ In (mspId uc) (adminOwners p)) ->
        forall x, In x parts -> ~ In p (snd x)).

(** Whether one of the clients may administer the peer. *)
Definition administrable (ucs : list UserClient) (p : Peer) : bool :=
  existsb (fun uc => administers (mspId uc) p) ucs.

(** [l1] is [l2] with some elements left out, the order kept. *)
Inductive Subseq {A : Type} : list A -> list A -> Prop :=
| Subseq_nil : Subseq [] []
| Subseq_skip x l1 l2 : Subseq l1 l2 -> Subseq l1 (x :: l2)
| Subseq_take x l1 l2 : Subseq l1 l2 -> Subseq (x :: l1) (x :: l2).

End MultiUserClient.

(** ** [ChannelSetupServer]: the rendezvous server *)

Module ChannelSetupServer.
Import Fabric.

Definition DEFAULT_PORT : N := 45207%N.
Definition SPLIT_CHAR : ascii := "-"%char.

(** A [net.Socket], by identity. *)
Definition Socket : Type := nat.

Record DistributedSetupChannelServerOpts : Type := mkOpts {
  opt_userClient : option UserClient;
  opt_channel : option Channel;
  opt_externalMspIds : option (list string);
  opt_port : option N
}.

(** The closure [cb] of [requestResponses]: it captures the timer
    [handle] and the [resolve] of its promise. *)
Record Callback : Type := mkCallback {
  cb_handle : nat;
  cb_resolve : nat
}.

(** The fields of the class. *)
Record Server : Type := mkServer {
  clients : list Socket;
  externalMspIds : list string;
  mspResponses : list string;
  waitResponsesCbs : list Callback;
  requesting : bool
}.

Inductive PromiseState : Type :=
| Pending
| Resolved
| RejectedWith (e : Error).

(** A [setTimeout] timer of [requestResponses]: when due, it rejects the
    promise [timerRejects]; [armed] is false once cleared or fired. *)
Record Timer : Type := mkTimer {
  deadline : N;
  timerRejects : nat;
  armed : bool
}.

(** The server object with the part of the event loop it lives in: the
    clock, the timers (a handle is an index), the promises handed out
    (a promise is an index) and the port listened on. *)
Record World : Type := mkWorld {
  server : Server;
  now : N;
  timers : list Timer;
  promises : list PromiseState;
  listening : N
}.

Inductive Effect : Type :=
| Write (socket : Socket) (message : string)
| ConsoleLog (message : string) (n : nat)
| Invoke (cb : Callback).

Definition TIMEOUT_ERROR : Error := "Error: Timeout waiting for clients".
Definition CONFIG_ERROR : Error :=
  "Error: either externalMspIds or userClient and channel are required".
Definition TYPE_ERROR : Error := "TypeError: peer.getAdminMspIds is not a function".
Definition RANGE_ERROR : Error :=
  "RangeError [ERR_SOCKET_BAD_PORT]: options.port should be >= 0 and < 65536".

(** *** Construction *)

(** [channel.getPeers().filter(peer => !peer.getAdminMspIds().includes(userMspId))];
    calling the method on an object that lacks it throws. *)
Fixpoint externalPeers (userMspId : string) (peers : list Peer)
  : Error + list Peer :=
  match peers with
  | [] => inr []
  | peer :: rest =>
      match getAdminMspIds peer with
      | None => inl TYPE_ERROR
      | Some ids =>
          match externalPeers userMspId rest with
          | inl e => inl e
          | inr kept =>
              if negb (Js.includes userMspId ids) then inr (peer :: kept)
              else inr kept
          end
      end
  end.

(** [externalPeers.map(peer => peer.getMspId())] *)
Fixpoint mspIdsOf (peers : list Peer) : Error + list string :=
  match peers with
  | [] => inr []
  | peer :: rest =>
      match getMspId peer, mspIdsOf rest with
      | Some m, inr ms => inr (m :: ms)
      | None, _ => inl TYPE_ERROR
      | _, inl e => inl e
      end
  end.

(** Lines 26-34: the expected identifiers, or the error thrown. *)
Definition constructor_externalMspIds (o : DistributedSetupChannelServerOpts)
  : Error + list string :=
  match opt_externalMspIds o with
  | Some ids => inr ids
  | None =>
      match opt_userClient o, opt_channel o with
      | Some userClient, Some channel =>
          let userMspId := mspId userClient in
          match externalPeers userMspId (getPeers channel) with
          | inl e => inl e
          | inr ext =>
              match mspIdsOf ext with
              | inl e => inl e
              | inr ms => inr (Js.uniq ms)
              end
          end
      | _, _ => inl CONFIG_ERROR
      end
  end.

(** [port || DEFAULT_PORT]: a port 0 is falsy too. *)
Definition listenPort (port : option N) : N :=
  match port with
  | Some p => if N.eqb p 0 then DEFAULT_PORT else p
  | None => DEFAULT_PORT
  end.

(** The constructor, started at instant [t0]: an error and no server,
    or the fresh server listening.  [server.listen] (line 67) throws a
    [RangeError] for a port that is not below 65536, after the fields
    were set; nothing is returned then.  (What the listener reports
    later through its ['error'] event, an address in use for one, comes
    after construction and is not part of it.) *)
Definition constructor (o : DistributedSetupChannelServerOpts) (t0 : N)
  : Error + World :=
  match constructor_externalMspIds o with
  | inl e => inl e
  | inr ids =>
      if N.ltb (listenPort (opt_port o)) 65536
      then inr (mkWorld (mkServer [] ids [] [] false) t0 [] []
                        (listenPort (opt_port o)))
      else inl RANGE_ERROR
  end.

(** *** Timers and promises *)

Definition setServer (w : World) (s : Server) : World :=
  mkWorld s (now w) (timers w) (promises w) (listening w).

Fixpoint updateAt {A} (l : list A) (i : nat) (f : A -> A) : list A :=
  match l, i with
  | [], _ => []
  | x :: t, O => f x :: t
  | x :: t, S j => x :: updateAt t j f
  end.

(** A timer cleared or fired. *)
Definition disarm (t : Timer) : Timer :=
  mkTimer (deadline t) (timerRejects t) false.

(** Settling a promise: only a pending one changes. *)
Definition settle (to : PromiseState) (s : PromiseState) : PromiseState :=
  match s with
  | Pending => to
  | _ => s
  end.

(** [clearTimeout(handle)]: nothing happens for a handle that is not
    armed. *)
Definition clearTimeout (w : World) (handle : nat) : World :=
  mkWorld (server w) (now w) (updateAt (timers w) handle disarm)
    (promises w) (listening w).

(** [resolve()] *)
Definition resolve (w : World) (p : nat) : World :=
  mkWorld (server w) (now w) (timers w)
    (updateAt (promises w) p (settle Resolved)) (listening w).

(** [reject(err)] *)
Definition reject (w : World) (p : nat) (e : Error) : World :=
  mkWorld (server w) (now w) (timers w)
    (updateAt (promises w) p (settle (RejectedWith e))) (listening w).

(** The body of [cb] (lines 73-76). *)
Definition runCallback (w : World) (cb : Callback) : World :=
  resolve (clearTimeout w (cb_handle cb)) (cb_resolve cb).

(** [this.waitResponsesCbs.forEach(cb => { cb() })] *)
Definition runCallbacks (w : World) (cbs : list Callback) : World :=
  fold_left runCallback cbs w.

(** *** The handlers *)

(** The connection listener (lines 41-44). *)
Definition onConnection (w : World) (socket : Socket) : World * list Effect :=
  let s := server w in
  let s' := mkServer (clients s ++ [socket]) (externalMspIds s)
                     (mspResponses s) (waitResponsesCbs s) (requesting s) in
  (setServer w s',
   if requesting s' then [Write socket "request"] else []).

(** Lines 47-50: the reported identifiers after a message. *)
Definition collectResponses (s : Server) (message : string) : list string :=
  Js.fp_intersection (externalMspIds s)
    (Js.uniq (mspResponses s ++ Js.split SPLIT_CHAR message)).

(** The test of line 51. *)
Definition roundComplete (s : Server) (responses : list string) : bool :=
  Nat.eqb (List.length responses) (List.length (externalMspIds s)).

(** The ['data'] listener (lines 46-58). *)
Definition onData (w : World) (socket : Socket) (message : string)
  : World * list Effect :=
  let s := server w in
  let responses := collectResponses s message in
  if roundComplete s responses
  then
    let w1 := runCallbacks w (waitResponsesCbs s) in
    (setServer w1
       (mkServer (clients s) (externalMspIds s) [] (waitResponsesCbs s) false),
     map Invoke (waitResponsesCbs s))
  else
    (setServer w
       (mkServer (clients s) (externalMspIds s) responses (waitResponsesCbs s)
                 (requesting s)),
     []).

(** The ['end'] listener (lines 60-62). *)
Definition onEnd (w : World) (socket : Socket) : World * list Effect :=
  let s := server w in
  (setServer w
     (mkServer (Js.splice (clients s) (Js.indexOf socket (clients s)) 1)
               (externalMspIds s) (mspResponses s) (waitResponsesCbs s)
               (requesting s)),
   []).

(** The longest delay [setTimeout] takes. *)
Definition TIMEOUT_MAX : N := 2147483647%N.

(** The delay [setTimeout(callback, after)] really sets: Node takes a
    delay below 1 or above [TIMEOUT_MAX] as 1. *)
Definition setTimeoutDelay (after : N) : N :=
  if N.leb 1 after && N.leb after TIMEOUT_MAX then after else 1%N.

(** [requestResponses(timeout = 60000)] (lines 70-83): the new world,
    the promise returned and the effects. *)
Definition requestResponses (w : World) (timeout : option N)
  : World * nat * list Effect :=
  let timeout := match timeout with Some t => t | None => 60000%N end in
  let s := server w in
  let promise := List.length (promises w) in
  let handle := List.length (timers w) in
  let cb := mkCallback handle promise in
  let s' := mkServer (clients s) (externalMspIds s) (mspResponses s)
                     (waitResponsesCbs s ++ [cb]) (requesting s) in
  (mkWorld s' (now w)
           (timers w ++ [mkTimer (now w + setTimeoutDelay timeout)%N promise true])
           (promises w ++ [Pending]) (listening w),
   promise,
   ConsoleLog "requestingResponses" (List.length (clients s))
     :: map (fun socket => Write socket "request") (clients s)).

(** [sendCompleted()] (lines 85-89). *)
Definition sendCompleted (w : World) : World * list Effect :=
  (w, map (fun socket => Write socket "complete") (clients (server w))).

(** *** The event loop *)

(** Whether a timer fires when the clock reaches [t]. *)
Definition due (t : N) (tm : Timer) : bool :=
  armed tm && N.leb (deadline tm) t.

(** The timers now due fire, in the order they were set: each is
    disarmed and rejects its promise (line 72). *)
Fixpoint fireDue (t : N) (ts : list Timer) (ps : list PromiseState)
  : list Timer * list PromiseState :=
  match ts with
  | [] => ([], ps)
  | tm :: rest =>
      if due t tm
      then
        let ps' := updateAt ps (timerRejects tm)
                     (settle (RejectedWith TIMEOUT_ERROR)) in
        let (rest', ps'') := fireDue t rest ps' in
        (disarm tm :: rest', ps'')
      else
        let (rest', ps') := fireDue t rest ps in
        (tm :: rest', ps')
  end.

(** [dt] milliseconds pass with no other event. *)
Definition elapse (w : World) (dt : N) : World * list Effect :=
  let t := (now w + dt)%N in
  let (ts, ps) := fireDue t (timers w) (promises w) in
  (mkWorld (server w) t ts ps (listening w), []).

Inductive Event : Type :=
| Connection (socket : Socket)
| Data (socket : Socket) (message : string)
| End (socket : Socket)
| RequestResponses (timeout : option N)
| SendCompleted
| Elapse (dt : N).

Definition step (w : World) (ev : Event) : World * list Effect :=
  match ev with
  | Connection socket => onConnection w socket
  | Data socket message => onData w socket message
  | End socket => onEnd w socket
  | RequestResponses timeout =>
      let '(w', _, out) := requestResponses w timeout in (w', out)
  | SendCompleted => sendCompleted w
  | Elapse dt => elapse w dt
  end.

Fixpoint run (w : World) (evs : list Event) : World * list Effect :=
  match evs with
  | [] => (w, [])
  | ev :: rest =>
      let (w1, out1) := step w ev in
      let (w2, out2) := run w1 rest in
      (w2, out1 ++ out2)
  end.

(** Whether an event completes the round in the world it arrives in. *)
Definition completes (w : World) (ev : Event) : bool :=
  match ev with
  | Data _ message =>
      roundComplete (server w) (collectResponses (server w) message)
  | _ => false
  end.

(** No event of the run completes the round. *)
Fixpoint noCompletion (w : World) (evs : list Event) : bool :=
  match evs with
  | [] => true
  | ev :: rest => negb (completes w ev) && noCompletion (fst (step w ev)) rest
  end.

(** The time that passes during a run. *)
Fixpoint elapsed (evs : list Event) : N :=
  match evs with
  | [] => 0%N
  | Elapse dt :: rest => (dt + elapsed rest)%N
  | _ :: rest => elapsed rest
  end.

Definition promiseState (w : World) (p : nat) : option PromiseState :=
  nth_error (promises w) p.

Definition timerArmed (w : World) (handle : nat) : bool :=
  match nth_error (timers w) handle with
  | Some t => armed t
  | None => false
  end.

(** The server just constructed with the given expected identifiers. *)
Definition fresh (ids : list string) : World :=
  mkWorld (mkServer [] ids [] [] false) 0%N [] [] DEFAULT_PORT.

(** The worlds the program can be in: a constructed server, after any
    sequence of events. *)
Definition reachable (w : World) : Prop :=
  exists o t0 w0 evs, constructor o t0 = inr w0 /\ w = fst (run w0 evs).

(** What holds of the timers, promises and callbacks in such a world:
    the n-th call of [requestResponses] made the n-th timer, promise and
    callback, tied to one another. *)
Definition wellFormed (w : World) : Prop :=
  List.length (promises w) = List.length (timers w)
  /\ waitResponsesCbs (server w)
     = map (fun i => mkCallback i i) (seq 0 (List.length (timers w)))
  /\ (forall h tm, nth_error (timers w) h = Some tm -> timerRejects tm = h).

(** The state of one call of [requestResponses] while the round is
    open: the timer is armed and the promise pending, or the deadline
    was reached, the timer has fired and the promise is rejected with
    the timeout error. *)
Definition waiting (h : nat) (d : N) (w : World) : Prop :=
  wellFormed w
  /\ (nth_error (timers w) h = Some (mkTimer d h true)
      /\ promiseState w h = Some Pending
      \/ (d <= now w)%N /\ timerArmed w h = false
         /\ promiseState w h = Some (RejectedWith TIMEOUT_ERROR)).

(** The number of [requestResponses] calls among events. *)
Fixpoint requestCount (evs : list Event) : nat :=
  match evs with
  | [] => 0
  | RequestResponses _ :: rest => S (requestCount rest)
  | _ :: rest => requestCount rest
  end.

End ChannelSetupServer.

(** * Properties *)

(** ** Facts about the array primitives *)

Module JsFacts.
Import Js.

Lemma includes_In (x : string) (l : list string) :
  includes x l = true <-> In x l.
Proof.
  unfold includes. rewrite existsb_exists. split.
  - intros [y [Hy Heq]]. apply String.eqb_eq in Heq. now subst.
  - intros H. exists x. split; [assumption | apply String.eqb_refl].
Qed.

Lemma includes_false (x : string) (l : list string) :
  includes x l = false <-> ~ In x l.
Proof.
  rewrite <- includes_In. destruct (includes x l); split; congruence.
Qed.

Lemma collect_In (keep : string -> bool) (l result : list string) (x : string) :
  In x (collect keep result l) <-> In x result \/ (In x l /\ keep x = true).
Proof.
  revert result. induction l as [|y t IH]; intros result; simpl.
  - tauto.
  - destruct (includes y result) eqn:Hinc; simpl.
    + apply includes_In in Hinc. rewrite IH.
      split; [tauto|]. intros [H|[[->|H] Hk]]; auto.
    + destruct (keep y) eqn:Hk; rewrite IH.
      * rewrite in_app_iff. simpl. split.
        -- intros [[H|[->|[]]]|[H1 H2]]; auto.
        -- intros [H|[[->|H] H2]]; auto.
      * split; [tauto|]. intros [H|[[->|H] H2]]; auto. congruence.
Qed.

Lemma collect_NoDup (keep : string -> bool) (l result : list string) :
  NoDup result -> NoDup (collect keep result l).
Proof.
  revert result. induction l as [|y t IH]; intros result Hnd; simpl; auto.
  destruct (includes y result) eqn:Hinc; simpl; auto.
  destruct (keep y); auto.
  apply IH. apply includes_false in Hinc.
  apply NoDup_app; [assumption | repeat constructor; auto | ].
  intros z Hz [->|[]]. contradiction.
Qed.

Lemma collect_app (keep : string -> bool) (l1 l2 result : list string) :
  collect keep result (l1 ++ l2) = collect keep (collect keep result l1) l2.
Proof.
  revert result. induction l1 as [|y t IH]; intros result; simpl; auto.
  destruct (negb (includes y result) && keep y); apply IH.
Qed.

(** Values already collected, or rejected by [keep], add nothing. *)
Lemma collect_absorb (keep : string -> bool) (l result : list string) :
  (forall x, In x l -> keep x = true -> In x result) ->
  collect keep result l = result.
Proof.
  revert result. induction l as [|y t IH]; intros result H; simpl; auto.
  destruct (includes y result) eqn:Hinc; simpl.
  - apply IH. intros x Hx. apply H. now right.
  - destruct (keep y) eqn:Hk.
    + apply includes_false in Hinc. exfalso. apply Hinc, H; simpl; auto.
    + apply IH. intros x Hx. apply H. now right.
Qed.

(** Distinct values that all pass [keep] are collected as they are. *)
Lemma collect_all (keep : string -> bool) (l result : list string) :
  NoDup (result ++ l) ->
  (forall x, In x l -> keep x = true) ->
  collect keep result l = result ++ l.
Proof.
  revert result. induction l as [|y t IH]; intros result Hnd Hk; simpl.
  - now rewrite app_nil_r.
  - assert (Hy : ~ In y result).
    { apply NoDup_remove_2 in Hnd. intros Hin. apply Hnd.
      apply in_or_app. now left. }
    apply includes_false in Hy. rewrite Hy, Hk by (simpl; auto). simpl.
    rewrite IH.
    + now rewrite <- app_assoc.
    + now rewrite <- app_assoc.
    + intros x Hx. apply Hk. now right.
Qed.

Lemma uniq_In (l : list string) (x : string) : In x (uniq l) <-> In x l.
Proof. unfold uniq. rewrite collect_In. simpl. tauto. Qed.

Lemma uniq_NoDup (l : list string) : NoDup (uniq l).
Proof. apply collect_NoDup. constructor. Qed.

Lemma intersection_In (a b : list string) (x : string) :
  In x (fp_intersection a b) <-> In x a /\ In x b.
Proof.
  unfold fp_intersection, intersection. rewrite collect_In, includes_In.
  simpl. tauto.
Qed.

Lemma intersection_NoDup (a b : list string) : NoDup (fp_intersection a b).
Proof. apply collect_NoDup. constructor. Qed.

(** The size of the intersection does not depend on which argument
    gives the order of the result. *)
Lemma intersection_length_comm (a b : list string) :
  List.length (fp_intersection a b) = List.length (fp_intersection b a).
Proof.
  apply Permutation_length, NoDup_Permutation; try apply intersection_NoDup.
  intros x. rewrite !intersection_In. tauto.
Qed.

Lemma split_not_nil (sep : ascii) (s : string) : split sep s <> [].
Proof.
  destruct s as [|c rest]; simpl; [discriminate|].
  destruct (Ascii.eqb c sep); [discriminate|].
  destruct (split sep rest); discriminate.
Qed.

(** Joining two payloads with the separator joins their pieces. *)
Lemma split_join (sep : ascii) (a b : string) :
  split sep (a ++ String sep b)%string = split sep a ++ split sep b.
Proof.
  induction a as [|c rest IH]; simpl.
  - now rewrite Ascii.eqb_refl.
  - destruct (Ascii.eqb c sep); [now rewrite IH|].
    rewrite IH. destruct (split sep rest) eqn:E; [|reflexivity].
    now apply split_not_nil in E.
Qed.

Lemma indexOf_present (x : nat) (l : list nat) :
  In x l ->
  exists before after,
    l = before ++ x :: after /\ ~ In x before
    /\ indexOf x l = Z.of_nat (List.length before).
Proof.
  induction l as [|y t IH]; simpl; intros H; [contradiction|].
  destruct (Nat.eqb_spec x y) as [->|Hne].
  - exists [], t. simpl. auto.
  - destruct H as [->|H]; [congruence|].
    destruct (IH H) as (b & a & -> & Hnb & Hi).
    exists (y :: b), a. simpl. rewrite Hi. repeat split.
    + intros [E|E]; [congruence | contradiction].
    + destruct (Z.ltb_spec (Z.of_nat (List.length b)) 0); lia.
Qed.

(** Splicing one element out at the index of a present element removes
    its first occurrence. *)
Lemma splice_indexOf_present (x : nat) (before after : list nat) :
  ~ In x before ->
  splice (before ++ x :: after) (indexOf x (before ++ x :: after)) 1
  = before ++ after.
Proof.
  intros Hnb.
  destruct (indexOf_present x (before ++ x :: after)) as (b & a & E & Hb & Hi).
  { apply in_or_app. right. now left. }
  assert (b = before /\ a = after) as [-> ->].
  { clear Hi. revert b E Hb. induction before as [|y t IH]; intros b E Hb.
    - destruct b as [|z b']; simpl in E.
      + split; congruence.
      + injection E as <- _. exfalso. apply Hb. now left.
    - destruct b as [|z b']; simpl in E.
      + injection E as <- _. exfalso. apply Hnb. now left.
      + injection E as <- E. destruct (IH (fun H => Hnb (or_intror H)) b' E)
          as [-> ->]; auto. intros H. apply Hb. now right. }
  unfold splice. rewrite Hi.
  destruct (Z.ltb_spec (Z.of_nat (List.length before)) 0); [lia|].
  rewrite Z.min_l by (rewrite length_app; simpl; lia).
  rewrite Nat2Z.id.
  rewrite firstn_app, Nat.sub_diag, firstn_all. simpl. rewrite app_nil_r.
  rewrite skipn_app, skipn_all2 by lia. simpl.
  replace (List.length before + 1 - List.length before) with 1 by lia.
  reflexivity.
Qed.

End JsFacts.

(** ** The rendezvous server *)

Module ChannelSetupServerFacts.
Import Js JsFacts Fabric ChannelSetupServer.

(** *** Indexed update *)

Lemma updateAt_length {A} (f : A -> A) (l : list A) (i : nat) :
  List.length (updateAt l i f) = List.length l.
Proof.
  revert i. induction l as [|x t IH]; intros [|i]; simpl; auto.
Qed.

Lemma updateAt_nth_same {A} (f : A -> A) (l : list A) (i : nat) :
  nth_error (updateAt l i f) i = option_map f (nth_error l i).
Proof.
  revert i. induction l as [|x t IH]; intros [|i]; simpl; auto.
Qed.

Lemma updateAt_nth_other {A} (f : A -> A) (l : list A) (i j : nat) :
  i <> j -> nth_error (updateAt l i f) j = nth_error l j.
Proof.
  revert i j. induction l as [|x t IH]; intros [|i] [|j] H; simpl; auto.
  congruence.
Qed.

Lemma updateAt_nth {A} (f : A -> A) (l : list A) (i j : nat) :
  nth_error (updateAt l i f) j
  = if Nat.eqb i j then option_map f (nth_error l j) else nth_error l j.
Proof.
  destruct (Nat.eqb_spec i j) as [->|H].
  - apply updateAt_nth_same.
  - now apply updateAt_nth_other.
Qed.

Lemma nth_error_app_Some {A} {l : list A} (l' : list A) {n : nat} {x : A} :
  nth_error l n = Some x -> nth_error (l ++ l') n = Some x.
Proof.
  intros H. rewrite nth_error_app1; [assumption|].
  apply nth_error_Some. congruence.
Qed.

(** *** What a message does to the reported identifiers *)

Lemma collectResponses_In (s : Server) (message x : string) :
  In x (collectResponses s message)
  <-> In x (externalMspIds s)
      /\ (In x (mspResponses s) \/ In x (split SPLIT_CHAR message)).
Proof.
  unfold collectResponses. rewrite intersection_In, uniq_In, in_app_iff.
  tauto.
Qed.

Lemma collectResponses_NoDup (s : Server) (message : string) :
  NoDup (collectResponses s message).
Proof. apply intersection_NoDup. Qed.

(** Two reports with the same expected identifiers in them give
    reported lists of one size. *)
Lemma collectResponses_length_ext (s : Server) (m1 m2 : string) :
  (forall x, In x (externalMspIds s) ->
             (In x (split SPLIT_CHAR m1) <-> In x (split SPLIT_CHAR m2))) ->
  List.length (collectResponses s m1) = List.length (collectResponses s m2).
Proof.
  intros H. apply Permutation_length, NoDup_Permutation;
    try apply collectResponses_NoDup.
  intros x. rewrite !collectResponses_In. split; intros [He Hx]; split; auto;
    destruct Hx as [Hx|Hx]; auto; right; now apply (H x He).
Qed.

Lemma collect_prefix (keep : string -> bool) (l result : list string) :
  exists extra, collect keep result l = result ++ extra
                /\ forall x, In x extra -> In x l.
Proof.
  revert result. induction l as [|y t IH]; intros result; simpl.
  - exists []. rewrite app_nil_r. split; [reflexivity | contradiction].
  - destruct (negb (includes y result) && keep y).
    + destruct (IH (result ++ [y])) as (extra & E & Hsub).
      exists (y :: extra). rewrite E, <- app_assoc. split; [reflexivity|].
      intros x [->|Hx]; [now left | right; auto].
    + destruct (IH result) as (extra & E & Hsub).
      exists extra. split; [assumption|]. intros x Hx. right. auto.
Qed.

(** Reporting again what was just reported changes nothing. *)
Lemma collectResponses_again (s : Server) (message : string) :
  let r := collectResponses s message in
  collectResponses
    (mkServer (clients s) (externalMspIds s) r (waitResponsesCbs s)
              (requesting s))
    message = r.
Proof.
  intros r. unfold collectResponses at 1. simpl.
  assert (Hnd : NoDup r) by apply collectResponses_NoDup.
  unfold uniq. rewrite collect_app.
  rewrite (collect_all _ r []) by (simpl; auto). simpl.
  destruct (collect_prefix (fun _ => true) (split SPLIT_CHAR message) r)
    as (extra & E & Hsub).
  rewrite E. unfold fp_intersection, intersection. rewrite collect_app.
  rewrite (collect_all _ r []); simpl; auto.
  - apply collect_absorb. intros x Hx Hk. apply includes_In in Hk.
    apply collectResponses_In. auto.
  - intros x Hx. apply includes_In. now apply collectResponses_In in Hx.
Qed.

(** With distinct expected identifiers, the test of line 51 passes
    exactly when each of them has been reported. *)
Lemma roundComplete_covers (s : Server) (message : string) :
  NoDup (externalMspIds s) ->
  roundComplete s (collectResponses s message) = true
  <-> forall x, In x (externalMspIds s) ->
                In x (mspResponses s) \/ In x (split SPLIT_CHAR message).
Proof.
  intros Hnd. unfold roundComplete. rewrite Nat.eqb_eq. split.
  - intros Hlen x Hx.
    assert (Hincl : incl (externalMspIds s) (collectResponses s message)).
    { apply NoDup_length_incl; [apply collectResponses_NoDup | lia |].
      intros y Hy. now apply collectResponses_In in Hy. }
    apply Hincl, collectResponses_In in Hx. tauto.
  - intros Hall. apply Permutation_length, NoDup_Permutation;
      [apply collectResponses_NoDup | assumption |].
    intros x. rewrite collectResponses_In. split; [tauto|]. auto.
Qed.

(** *** Callbacks, timers and promises *)

Lemma runCallbacks_frame (cbs : list Callback) (w : World) :
  server (runCallbacks w cbs) = server w
  /\ now (runCallbacks w cbs) = now w
  /\ listening (runCallbacks w cbs) = listening w.
Proof.
  revert w. induction cbs as [|cb t IH]; intros w; simpl; auto.
  destruct (IH (runCallback w cb)) as (H1 & H2 & H3).
  unfold runCallbacks in *. rewrite H1, H2, H3. auto.
Qed.

(** After the callbacks ran, a timer is disarmed when one of them
    holds its handle, and is as before otherwise. *)
Lemma runCallbacks_timers (cbs : list Callback) (w : World) (h : nat) :
  nth_error (timers (runCallbacks w cbs)) h
  = option_map
      (fun tm => if existsb (fun cb => Nat.eqb (cb_handle cb) h) cbs
                 then disarm tm else tm)
      (nth_error (timers w) h).
Proof.
  revert w. induction cbs as [|cb t IH]; intros w; simpl.
  - now destruct (nth_error (timers w) h).
  - unfold runCallbacks in *. simpl. rewrite IH. simpl.
    rewrite updateAt_nth.
    destruct (Nat.eqb (cb_handle cb) h); simpl;
      destruct (nth_error (timers w) h); simpl; auto.
    now destruct (existsb _ t).
Qed.

(** After the callbacks ran, a promise is resolved when it was pending
    and one of them holds its [resolve], and is as before otherwise. *)
Lemma runCallbacks_promises (cbs : list Callback) (w : World) (p : nat) :
  nth_error (promises (runCallbacks w cbs)) p
  = option_map
      (fun s => if existsb (fun cb => Nat.eqb (cb_resolve cb) p) cbs
                then settle Resolved s else s)
      (nth_error (promises w) p).
Proof.
  revert w. induction cbs as [|cb t IH]; intros w; simpl.
  - now destruct (nth_error (promises w) p).
  - unfold runCallbacks in *. simpl. rewrite IH. simpl.
    rewrite updateAt_nth.
    destruct (Nat.eqb (cb_resolve cb) p); simpl;
      destruct (nth_error (promises w) p) as [s|]; simpl; auto.
    destruct (existsb _ t); auto. now destruct s.
Qed.

Lemma runCallbacks_lengths (cbs : list Callback) (w : World) :
  List.length (timers (runCallbacks w cbs)) = List.length (timers w)
  /\ List.length (promises (runCallbacks w cbs)) = List.length (promises w).
Proof.
  revert w. induction cbs as [|cb t IH]; intros w; simpl; auto.
  unfold runCallbacks in *. simpl. destruct (IH (runCallback w cb)) as [H1 H2].
  rewrite H1, H2. simpl. now rewrite !updateAt_length.
Qed.

Lemma fireDue_lengths (t : N) (ts : list Timer) (ps : list PromiseState) :
  List.length (fst (fireDue t ts ps)) = List.length ts
  /\ List.length (snd (fireDue t ts ps)) = List.length ps.
Proof.
  revert ps. induction ts as [|tm rest IH]; intros ps; simpl; auto.
  destruct (due t tm).
  - specialize (IH (updateAt ps (timerRejects tm)
                      (settle (RejectedWith TIMEOUT_ERROR)))).
    destruct (fireDue t rest _) as [r q]. simpl in *.
    rewrite updateAt_length in IH. destruct IH. auto.
  - specialize (IH ps). destruct (fireDue t rest ps) as [r q]. simpl in *.
    destruct IH. auto.
Qed.

(** A timer that is due is disarmed; the others are as before. *)
Lemma fireDue_timers (t : N) (ts : list Timer) (ps : list PromiseState)
  (h : nat) :
  nth_error (fst (fireDue t ts ps)) h
  = option_map (fun tm => if due t tm then disarm tm else tm) (nth_error ts h).
Proof.
  revert ps h. induction ts as [|tm rest IH]; intros ps h; simpl.
  - now destruct h.
  - destruct (due t tm) eqn:Hd.
    + specialize (IH (updateAt ps (timerRejects tm)
                        (settle (RejectedWith TIMEOUT_ERROR)))).
      destruct (fireDue t rest _) as [r q]. simpl in *.
      destruct h as [|h]; simpl; [now rewrite Hd | apply IH].
    + specialize (IH ps). destruct (fireDue t rest ps) as [r q]. simpl in *.
      destruct h as [|h]; simpl; [now rewrite Hd | apply IH].
Qed.

(** A pending promise is rejected with the timeout error when a timer
    that is due rejects it; the others are as before. *)
Lemma fireDue_promises (t : N) (ts : list Timer) (ps : list PromiseState)
  (p : nat) :
  nth_error (snd (fireDue t ts ps)) p
  = option_map
      (fun s => if existsb (fun tm => due t tm && Nat.eqb (timerRejects tm) p) ts
                then settle (RejectedWith TIMEOUT_ERROR) s else s)
      (nth_error ps p).
Proof.
  revert ps. induction ts as [|tm rest IH]; intros ps; simpl.
  - now destruct (nth_error ps p).
  - destruct (due t tm) eqn:Hd; simpl.
    + specialize (IH (updateAt ps (timerRejects tm)
                        (settle (RejectedWith TIMEOUT_ERROR)))).
      destruct (fireDue t rest _) as [r q]. simpl in *. rewrite IH.
      rewrite updateAt_nth.
      destruct (Nat.eqb (timerRejects tm) p); simpl;
        destruct (nth_error ps p) as [s|]; simpl; auto.
      destruct (existsb _ rest); auto. now destruct s.
    + specialize (IH ps). destruct (fireDue t rest ps) as [r q]. simpl in *.
      apply IH.
Qed.

(** *** Runs *)

Lemma run_app (w : World) (a b : list Event) :
  fst (run w (a ++ b)) = fst (run (fst (run w a)) b).
Proof.
  revert w. induction a as [|ev a IH]; intros w; simpl; auto.
  destruct (step w ev) as [w1 o1]. specialize (IH w1).
  destruct (run w1 (a ++ b)) as [w2 o2]. destruct (run w1 a) as [w3 o3].
  simpl in *. exact IH.
Qed.

Lemma run_cons (w : World) (ev : Event) (evs : list Event) :
  fst (run w (ev :: evs)) = fst (run (fst (step w ev)) evs).
Proof.
  cbn [run]. destruct (step w ev) as [w1 o1]. cbn [fst].
  now destruct (run w1 evs).
Qed.

(** The callback list only ever grows, by the callback of each
    [requestResponses] call. *)
Lemma step_waitResponsesCbs (w : World) (ev : Event) :
  waitResponsesCbs (server (fst (step w ev)))
  = waitResponsesCbs (server w)
    ++ match ev with
       | RequestResponses _ =>
           [mkCallback (List.length (timers w)) (List.length (promises w))]
       | _ => []
       end.
Proof.
  destruct ev; simpl; rewrite ?app_nil_r; try reflexivity.
  - unfold onData. now destruct (roundComplete _ _).
  - unfold elapse. now destruct (fireDue _ _ _).
Qed.

Lemma wellFormed_constructor (o : DistributedSetupChannelServerOpts) (t0 : N)
  (w : World) :
  constructor o t0 = inr w -> wellFormed w.
Proof.
  unfold constructor. destruct (constructor_externalMspIds o); [discriminate|].
  destruct (N.ltb _ _); [|discriminate].
  intros H. injection H as <-. repeat split; simpl; auto.
  intros [|h] tm; discriminate.
Qed.

Lemma wellFormed_step (w : World) (ev : Event) :
  wellFormed w -> wellFormed (fst (step w ev)).
Proof.
  intros (Hlen & Hcbs & Htm).
  destruct ev as [s|s m|s|t| |dt]; simpl; try (repeat split; assumption).
  - (* data *)
    unfold onData. destruct (roundComplete _ _); unfold setServer; simpl;
      [|repeat split; assumption].
    destruct (runCallbacks_lengths (waitResponsesCbs (server w)) w) as [L1 L2].
    repeat split; simpl.
    + congruence.
    + now rewrite L1.
    + intros h tm. rewrite runCallbacks_timers.
      destruct (nth_error (timers w) h) as [tm0|] eqn:E; [|discriminate].
      simpl. intros H. injection H as <-.
      destruct (existsb _ _); simpl; eauto.
  - (* requestResponses *)
    repeat split; simpl.
    + rewrite !length_app. simpl. lia.
    + rewrite length_app. simpl. rewrite Nat.add_1_r, seq_S, map_app. simpl.
      now rewrite Hcbs, Hlen.
    + intros h tm H.
      destruct (Nat.lt_ge_cases h (List.length (timers w))) as [Hlt|Hge].
      * rewrite nth_error_app1 in H by assumption. eauto.
      * rewrite nth_error_app2 in H by assumption.
        destruct (h - List.length (timers w)) as [|k] eqn:E; simpl in H.
        -- injection H as <-. simpl. lia.
        -- now destruct k.
  - (* time passes *)
    unfold elapse.
    pose proof (fireDue_lengths (now w + dt)%N (timers w) (promises w)) as [L1 L2].
    pose proof (fireDue_timers (now w + dt)%N (timers w) (promises w)) as HT.
    destruct (fireDue _ _ _) as [ts ps]. simpl in *.
    repeat split; simpl.
    + congruence.
    + now rewrite L1.
    + intros h tm. rewrite HT.
      destruct (nth_error (timers w) h) as [tm0|] eqn:E; [|discriminate].
      simpl. intros H. injection H as <-.
      destruct (due _ _); simpl; eauto.
Qed.

Lemma wellFormed_run (evs : list Event) (w : World) :
  wellFormed w -> wellFormed (fst (run w evs)).
Proof.
  revert w. induction evs as [|ev evs IH]; intros w H; [assumption|].
  rewrite run_cons. apply IH, wellFormed_step, H.
Qed.

Lemma reachable_wellFormed (w : World) : reachable w -> wellFormed w.
Proof.
  intros (o & t0 & w0 & evs & Hc & ->).
  eapply wellFormed_run, wellFormed_constructor, Hc.
Qed.

Lemma wellFormed_NoDup_cbs (w : World) :
  wellFormed w -> NoDup (waitResponsesCbs (server w)).
Proof.
  intros (_ & -> & _). apply Finite.Injective_map_NoDup.
  - intros i j H. now injection H.
  - apply seq_NoDup.
Qed.

(** *** The round flag *)

(** No handler ever raises the flag: a step leaves it up only if it was
    up before. *)
Lemma step_requesting (w : World) (ev : Event) :
  requesting (server (fst (step w ev))) = true ->
  requesting (server w) = true.
Proof.
  destruct ev; simpl; auto.
  - unfold onData. destruct (roundComplete _ _); simpl; auto. discriminate.
  - unfold elapse. now destruct (fireDue _ _ _).
Qed.

Lemma run_requesting (evs : list Event) (w : World) :
  requesting (server w) = false ->
  requesting (server (fst (run w evs))) = false.
Proof.
  revert w. induction evs as [|ev evs IH]; intros w H; [assumption|].
  rewrite run_cons. apply IH.
  destruct (requesting (server (fst (step w ev)))) eqn:E; auto.
  apply step_requesting in E. congruence.
Qed.

(** C1 (the code departs from the claim): [requestResponses] does not
    raise the round flag, and nothing else does.  Whatever the options
    the server was built with and whatever happened since, among which
    any number of [requestResponses] calls, the flag is false, and a
    participant that connects is written nothing. *)
Theorem requesting_flag_never_raised :
  forall (o : DistributedSetupChannelServerOpts) (t0 : N) (evs : list Event)
         (socket : Socket),
    match constructor o t0 with
    | inl _ => True
    | inr w0 =>
        let w := fst (run w0 evs) in
        requesting (server w) = false
        /\ snd (onConnection w socket) = []
        /\ requesting (server (fst (onConnection w socket))) = false
    end.
Proof.
  intros o t0 evs socket.
  destruct (constructor o t0) as [e|w0] eqn:Hc; [exact I|].
  assert (H0 : requesting (server w0) = false).
  { unfold constructor in Hc.
    destruct (constructor_externalMspIds o); [discriminate|].
    destruct (N.ltb _ _); [|discriminate].
    now injection Hc as <-. }
  pose proof (run_requesting evs w0 H0) as H.
  cbv zeta. unfold onConnection. simpl. rewrite H. auto.
Qed.

(** The failing input of C1: expected identifiers A and B, a call of
    [requestResponses(1000)], then a participant connects. *)
Example late_joiner_is_not_asked :
  let w0 := fresh ["A"; "B"] in
  let w1 := fst (run w0 [RequestResponses (Some 1000%N)]) in
  requesting (server w1) = false
  /\ promiseState w1 0 = Some Pending
  /\ snd (onConnection w1 7) = [].
Proof. repeat split. Qed.

(** *** Collecting reports *)

(** C5: a message is split on '-', its pieces are added to the reported
    identifiers, duplicates dropped, and what is not expected dropped.
    The reported list has no duplicates and holds expected identifiers
    only; two reports that contain the same expected identifiers,
    however often and with whatever else, meet the completion test
    alike; and a report that did not complete the round, sent again on
    any connection, changes nothing. *)
Theorem reported_identifiers_form_a_set :
  forall (w : World) (socket socket' : Socket) (message m2 : string),
    let s := server w in
    let r := collectResponses s message in
    r = fp_intersection (externalMspIds s)
          (uniq (mspResponses s ++ split "-" message))
    /\ NoDup r
    /\ (forall x, In x r <->
                  In x (externalMspIds s)
                  /\ (In x (mspResponses s) \/ In x (split "-" message)))
    /\ (forallb (fun x => Bool.eqb (includes x (split "-" message))
                                   (includes x (split "-" m2)))
                (externalMspIds s) = true ->
        completes w (Data socket' m2) = completes w (Data socket message)
        /\ forall x, In x (collectResponses s m2) <-> In x r)
    /\ (completes w (Data socket message) = false ->
        let w1 := fst (onData w socket message) in
        mspResponses (server w1) = r
        /\ onData w1 socket' message = (w1, [])
        /\ onData w1 socket' (message ++ "-" ++ message) = (w1, [])).
Proof.
  intros w socket socket' message m2 s r.
  split; [reflexivity|].
  split; [apply collectResponses_NoDup|].
  split; [apply collectResponses_In|].
  split.
  - intros Hagree. rewrite forallb_forall in Hagree.
    assert (Hiff : forall x, In x (externalMspIds s) ->
              (In x (split "-" message) <-> In x (split "-" m2))).
    { intros x Hx. specialize (Hagree x Hx). apply Bool.eqb_prop in Hagree.
      rewrite <- !includes_In. now rewrite Hagree. }
    split.
    + simpl. unfold roundComplete. fold s.
      now rewrite (collectResponses_length_ext s message m2 Hiff).
    + intros x. unfold r. rewrite !collectResponses_In.
      split; intros [He Hx]; split; auto; destruct Hx as [Hx|Hx]; auto;
        right; now apply (Hiff x He).
  - intros Hnc. simpl in Hnc. fold s in Hnc.
    unfold onData at 1. fold s. fold r in Hnc |- *. rewrite Hnc.
    cbv zeta. simpl fst.
    set (s1 := mkServer (clients s) (externalMspIds s) r (waitResponsesCbs s)
                        (requesting s)).
    assert (Hr1 : collectResponses s1 message = r)
      by apply collectResponses_again.
    assert (Hr2 : collectResponses s1 (message ++ "-" ++ message) = r).
    { unfold collectResponses. simpl.
      change (String "-" message) with ("-" ++ message)%string.
      change ("-" ++ message)%string with (String SPLIT_CHAR message).
      rewrite split_join.
      unfold collectResponses in Hr1. simpl in Hr1.
      unfold uniq in *. rewrite !app_assoc, collect_app.
      set (u := collect (fun _ => true) [] (r ++ split SPLIT_CHAR message)) in *.
      rewrite (collect_absorb _ (split SPLIT_CHAR message) u); [exact Hr1|].
      intros x Hx _. unfold u. apply collect_In. right. split; auto.
      apply in_or_app. now right. }
    split; [reflexivity|].
    split.
    + unfold onData. change (server (setServer w s1)) with s1. rewrite Hr1.
      change (roundComplete s1 r) with (roundComplete s r). rewrite Hnc.
      reflexivity.
    + unfold onData. change (server (setServer w s1)) with s1. rewrite Hr2.
      change (roundComplete s1 r) with (roundComplete s r). rewrite Hnc.
      reflexivity.
Qed.

Lemma reported_identifiers_form_a_set_witness :
  let w := fresh ["A"; "B"] in
  forallb (fun x => Bool.eqb (includes x (split "-" "A-Z"))
                             (includes x (split "-" "A")))
          (externalMspIds (server w)) = true
  /\ completes w (Data 1 "A-Z") = false
  /\ completes w (Data 2 "A") = completes w (Data 1 "A-Z")
  /\ mspResponses (server (fst (onData w 1 "A-Z"))) = ["A"]
  /\ onData (fst (onData w 1 "A-Z")) 2 "A-Z" = (fst (onData w 1 "A-Z"), []).
Proof.
  intro w.
  destruct (reported_identifiers_form_a_set w 1 2 "A-Z" "A")
    as (_ & _ & _ & H4 & H5).
  split; [reflexivity|]. split; [reflexivity|].
  split; [apply H4; reflexivity|].
  destruct (H5 eq_refl) as (E1 & E2 & _).
  split; [rewrite E1; reflexivity | exact E2].
Defined.

(** The example of the specification: with A and B expected, the report
    "A-Z" counts A only and the round stays open. *)
Example unexpected_identifier_is_ignored :
  let w := fresh ["A"; "B"] in
  mspResponses (server (fst (onData w 1 "A-Z"))) = ["A"]
  /\ completes w (Data 1 "A-Z") = false
  /\ completes (fst (onData w 1 "A-Z")) (Data 2 "Z-B") = true.
Proof. repeat split. Qed.

(** *** Completion *)

Lemma existsb_cb_handle (cbs : list Callback) (cb : Callback) :
  In cb cbs -> existsb (fun c => Nat.eqb (cb_handle c) (cb_handle cb)) cbs = true.
Proof.
  intros H. apply existsb_exists. exists cb. split; [assumption|].
  apply Nat.eqb_refl.
Qed.

Lemma existsb_cb_resolve (cbs : list Callback) (cb : Callback) :
  In cb cbs -> existsb (fun c => Nat.eqb (cb_resolve c) (cb_resolve cb)) cbs = true.
Proof.
  intros H. apply existsb_exists. exists cb. split; [assumption|].
  apply Nat.eqb_refl.
Qed.

(** What a completing message does, in any world. *)
Lemma onData_complete (w : World) (socket : Socket) (message : string) :
  completes w (Data socket message) = true ->
  onData w socket message
  = (setServer (runCallbacks w (waitResponsesCbs (server w)))
       (mkServer (clients (server w)) (externalMspIds (server w)) []
                 (waitResponsesCbs (server w)) false),
     map Invoke (waitResponsesCbs (server w))).
Proof. unfold completes, onData. now intros ->. Qed.

(** What a message that does not complete the round does. *)
Lemma onData_incomplete (w : World) (socket : Socket) (message : string) :
  completes w (Data socket message) = false ->
  onData w socket message
  = (setServer w
       (mkServer (clients (server w)) (externalMspIds (server w))
                 (collectResponses (server w) message)
                 (waitResponsesCbs (server w)) (requesting (server w))),
     []).
Proof. unfold completes, onData. now intros ->. Qed.

(** Every callback in the list has its timer cleared and its promise,
    if pending, resolved. *)
Lemma runCallbacks_releases (w : World) (cb : Callback) :
  In cb (waitResponsesCbs (server w)) ->
  let w' := runCallbacks w (waitResponsesCbs (server w)) in
  timerArmed w' (cb_handle cb) = false
  /\ (promiseState w (cb_resolve cb) = Some Pending ->
      promiseState w' (cb_resolve cb) = Some Resolved).
Proof.
  intros Hin w'. unfold timerArmed, promiseState, w'. split.
  - rewrite runCallbacks_timers, existsb_cb_handle by assumption.
    now destruct (nth_error (timers w) (cb_handle cb)).
  - intros Hp.
    rewrite runCallbacks_promises, existsb_cb_resolve, Hp by assumption.
    reflexivity.
Qed.

(** C4: when, after a message, the reported list is as long as the
    expected one, each registered callback is invoked, once; its timer
    is cleared and its promise, if pending, resolved; the reported list
    is emptied and the round flag set to false. *)
Theorem round_completion_releases_and_resets :
  forall (w : World) (socket : Socket) (message : string),
    reachable w ->
    List.length (collectResponses (server w) message)
    = List.length (externalMspIds (server w)) ->
    let w' := fst (onData w socket message) in
    let out := snd (onData w socket message) in
    out = map Invoke (waitResponsesCbs (server w))
    /\ NoDup out
    /\ (forall cb, In cb (waitResponsesCbs (server w)) ->
          In (Invoke cb) out
          /\ timerArmed w' (cb_handle cb) = false
          /\ (promiseState w (cb_resolve cb) = Some Pending ->
              promiseState w' (cb_resolve cb) = Some Resolved))
    /\ mspResponses (server w') = []
    /\ requesting (server w') = false.
Proof.
  intros w socket message Hr Hlen w' out.
  assert (Hc : completes w (Data socket message) = true).
  { simpl. unfold roundComplete. now apply Nat.eqb_eq. }
  unfold w', out. rewrite (onData_complete _ _ _ Hc). simpl.
  split; [reflexivity|]. split.
  - apply Finite.Injective_map_NoDup.
    + intros a b H. now injection H.
    + apply wellFormed_NoDup_cbs, reachable_wellFormed, Hr.
  - split; [|split; reflexivity].
    intros cb Hin. split; [now apply in_map|].
    apply (runCallbacks_releases w cb Hin).
Qed.

Lemma round_completion_releases_and_resets_witness :
  let w := fst (run (fresh ["A"; "B"])
                  [Connection 1; Connection 2; RequestResponses (Some 5000%N);
                   RequestResponses None; Data 1 "A"]) in
  reachable w
  /\ List.length (collectResponses (server w) "B")
     = List.length (externalMspIds (server w))
  /\ snd (onData w 2 "B") = [Invoke (mkCallback 0 0); Invoke (mkCallback 1 1)]
  /\ promiseState (fst (onData w 2 "B")) 0 = Some Resolved
  /\ promiseState (fst (onData w 2 "B")) 1 = Some Resolved
  /\ mspResponses (server (fst (onData w 2 "B"))) = []
  /\ requesting (server (fst (onData w 2 "B"))) = false.
Proof.
  intro w.
  assert (Hr : reachable w).
  { exists (mkOpts None None (Some ["A"; "B"]) None), 0%N, (fresh ["A"; "B"]).
    eexists. split; reflexivity. }
  assert (Hl : List.length (collectResponses (server w) "B")
               = List.length (externalMspIds (server w))) by reflexivity.
  destruct (round_completion_releases_and_resets w 2 "B" Hr Hl)
    as (Hout & _ & Hcb & Hm & Hq).
  split; [exact Hr|]. split; [exact Hl|].
  split; [rewrite Hout; reflexivity|].
  split.
  { apply (Hcb (mkCallback 0 0)); [simpl; auto | reflexivity]. }
  split.
  { apply (Hcb (mkCallback 1 1)); [simpl; auto | reflexivity]. }
  split; assumption.
Defined.

(** *** Disconnection *)

Lemma runCallbacks_setServer (cbs : list Callback) (w : World) (s : Server) :
  runCallbacks (setServer w s) cbs = setServer (runCallbacks w cbs) s.
Proof.
  revert w. induction cbs as [|cb t IH]; intros w; [reflexivity|].
  unfold runCallbacks in *. simpl. rewrite <- IH. reflexivity.
Qed.

(** C9: the ['end'] handler takes the participant out of the connected
    set and touches nothing else.  What it had reported stays reported,
    so every later message meets the completion test as it would have,
    and has the same effect, had the participant stayed. *)
Theorem disconnection_leaves_reports :
  forall (w : World) (socket : Socket),
    In socket (clients (server w)) ->
    NoDup (clients (server w)) ->
    let w' := fst (onEnd w socket) in
    ~ In socket (clients (server w'))
    /\ (forall s, s <> socket ->
          (In s (clients (server w')) <-> In s (clients (server w))))
    /\ mspResponses (server w') = mspResponses (server w)
    /\ externalMspIds (server w') = externalMspIds (server w)
    /\ waitResponsesCbs (server w') = waitResponsesCbs (server w)
    /\ requesting (server w') = requesting (server w)
    /\ timers w' = timers w
    /\ promises w' = promises w
    /\ snd (onEnd w socket) = []
    /\ (forall (socket2 : Socket) (message : string),
          completes w' (Data socket2 message)
          = completes w (Data socket2 message)
          /\ snd (onData w' socket2 message) = snd (onData w socket2 message)
          /\ fst (onData w' socket2 message)
             = fst (onEnd (fst (onData w socket2 message)) socket)).
Proof.
  intros w socket Hin Hnd w'.
  destruct (indexOf_present socket (clients (server w)) Hin)
    as (before & after & Hcl & Hnb & _).
  assert (Hsp : clients (server w') = before ++ after).
  { unfold w'. simpl. rewrite Hcl. now apply splice_indexOf_present. }
  rewrite Hcl in Hnd.
  split.
  { rewrite Hsp. apply NoDup_remove_2 in Hnd. exact Hnd. }
  split.
  { intros s Hs. rewrite Hsp, Hcl, !in_app_iff. simpl.
    split; [tauto|]. intros [H|[H|H]]; auto. congruence. }
  do 7 (split; [reflexivity|]).
  intros socket2 message.
  split; [reflexivity|].
  destruct (completes w (Data socket2 message)) eqn:Hc.
  - assert (Hc' : completes w' (Data socket2 message) = true) by exact Hc.
    rewrite (onData_complete _ _ _ Hc), (onData_complete _ _ _ Hc').
    split; [reflexivity|]. unfold w', onEnd. simpl.
    rewrite runCallbacks_setServer. reflexivity.
  - assert (Hc' : completes w' (Data socket2 message) = false) by exact Hc.
    rewrite (onData_incomplete _ _ _ Hc), (onData_incomplete _ _ _ Hc').
    split; reflexivity.
Qed.

Lemma disconnection_leaves_reports_witness :
  let w := fst (run (fresh ["A"; "B"])
                  [Connection 1; Connection 2; RequestResponses None;
                   Data 1 "A"]) in
  In 1 (clients (server w))
  /\ NoDup (clients (server w))
  /\ clients (server (fst (onEnd w 1))) = [2]
  /\ ~ In 1 (clients (server (fst (onEnd w 1))))
  /\ mspResponses (server (fst (onEnd w 1))) = ["A"]
  /\ completes (fst (onEnd w 1)) (Data 2 "B") = true.
Proof.
  intro w.
  assert (Hin : In 1 (clients (server w))) by (simpl; auto).
  assert (Hnd : NoDup (clients (server w))).
  { simpl. repeat constructor; simpl; intuition discriminate. }
  destruct (disconnection_leaves_reports w 1 Hin Hnd)
    as (Hout & _ & Hm & _ & _ & _ & _ & _ & _ & Hlater).
  split; [exact Hin|]. split; [exact Hnd|].
  split; [reflexivity|]. split; [exact Hout|].
  split; [rewrite Hm; reflexivity|].
  destruct (Hlater 2 "B") as (-> & _). reflexivity.
Defined.

(** *** The callback list *)

Lemma run_waitResponsesCbs_incl (evs : list Event) (w : World) (cb : Callback) :
  In cb (waitResponsesCbs (server w)) ->
  In cb (waitResponsesCbs (server (fst (run w evs)))).
Proof.
  revert w. induction evs as [|ev evs IH]; intros w H; [assumption|].
  rewrite run_cons. apply IH. rewrite step_waitResponsesCbs.
  apply in_or_app. now left.
Qed.

(** C10: the callback a call of [requestResponses] registers is in the
    list after any later events, whatever became of its promise; each
    completion of a round invokes it, and leaves the list as it is while
    it empties the reported list and lowers the flag. *)
Theorem callbacks_are_never_unregistered :
  forall (w : World) (timeout : option N) (evs : list Event) (ev : Event),
    let w1 := fst (fst (requestResponses w timeout)) in
    let cb := mkCallback (List.length (timers w)) (List.length (promises w)) in
    let w2 := fst (run w1 evs) in
    In cb (waitResponsesCbs (server w2))
    /\ (completes w2 ev = true ->
        In (Invoke cb) (snd (step w2 ev))
        /\ waitResponsesCbs (server (fst (step w2 ev)))
           = waitResponsesCbs (server w2)
        /\ mspResponses (server (fst (step w2 ev))) = []
        /\ requesting (server (fst (step w2 ev))) = false).
Proof.
  intros w timeout evs ev w1 cb w2.
  assert (Hin : In cb (waitResponsesCbs (server w2))).
  { apply run_waitResponsesCbs_incl. unfold w1, cb. simpl.
    apply in_or_app. right. now left. }
  split; [exact Hin|].
  intros Hc. destruct ev as [s|s m|s|t| |dt]; try discriminate.
  cbn [step]. rewrite (onData_complete _ _ _ Hc). simpl.
  split; [now apply in_map|]. repeat split.
Qed.

(** A call that timed out is released again by a later round. *)
Lemma callbacks_are_never_unregistered_witness :
  let w := fresh ["A"] in
  let evs := [Elapse 200%N; RequestResponses (Some 100%N)] in
  let w2 := fst (run (fst (fst (requestResponses w (Some 100%N)))) evs) in
  promiseState w2 0 = Some (RejectedWith TIMEOUT_ERROR)
  /\ completes w2 (Data 1 "A") = true
  /\ waitResponsesCbs (server w2) = [mkCallback 0 0; mkCallback 1 1]
  /\ In (Invoke (mkCallback 0 0)) (snd (step w2 (Data 1 "A")))
  /\ waitResponsesCbs (server (fst (step w2 (Data 1 "A"))))
     = [mkCallback 0 0; mkCallback 1 1].
Proof.
  intros w evs w2.
  destruct (callbacks_are_never_unregistered w (Some 100%N) evs (Data 1 "A"))
    as (_ & H).
  destruct (H eq_refl) as (Hinv & Hcbs & _).
  split; [reflexivity|]. split; [reflexivity|]. split; [reflexivity|].
  split; [exact Hinv|]. etransitivity; [exact Hcbs | reflexivity].
Defined.

(** *** Timers *)

Lemma run_now (evs : list Event) (w : World) :
  now (fst (run w evs)) = (now w + elapsed evs)%N.
Proof.
  revert w. induction evs as [|ev evs IH]; intros w.
  - simpl. lia.
  - rewrite run_cons, IH. destruct ev; simpl; try reflexivity.
    + unfold onData. destruct (roundComplete _ _); simpl; [|reflexivity].
      now destruct (runCallbacks_frame (waitResponsesCbs (server w)) w)
        as (_ & -> & _).
    + unfold elapse. destruct (fireDue _ _ _). simpl. lia.
Qed.

(** In a well-formed world the only timer that rejects promise [p] is
    timer [p]. *)
Lemma wellFormed_rejecters (w : World) (t : N) (p : nat) :
  wellFormed w ->
  existsb (fun tm => due t tm && Nat.eqb (timerRejects tm) p) (timers w)
  = match nth_error (timers w) p with
    | Some tm => due t tm
    | None => false
    end.
Proof.
  intros (_ & _ & Htm). apply Bool.eq_iff_eq_true.
  rewrite existsb_exists. split.
  - intros (tm & Hin & Hb). apply andb_prop in Hb as [Hd He].
    apply Nat.eqb_eq in He. apply In_nth_error in Hin as [h Hh].
    assert (h = p) as -> by (rewrite <- He; symmetry; eauto).
    now rewrite Hh.
  - destruct (nth_error (timers w) p) as [tm|] eqn:E; [|discriminate].
    intros Hd. exists tm. split; [eapply nth_error_In, E|].
    rewrite Hd. simpl. apply Nat.eqb_eq. eauto.
Qed.

(** A settled promise stays as it is. *)
Lemma step_settled (w : World) (ev : Event) (p : nat) (s : PromiseState) :
  s <> Pending ->
  promiseState w p = Some s ->
  promiseState (fst (step w ev)) p = Some s.
Proof.
  unfold promiseState. intros Hs H.
  destruct ev as [c|c m|c|t| |dt]; simpl; auto.
  - unfold onData. destruct (roundComplete _ _); simpl; auto.
    rewrite runCallbacks_promises, H. simpl.
    destruct (existsb _ _); [|reflexivity]. now destruct s.
  - apply nth_error_app_Some. assumption.
  - unfold elapse.
    pose proof (fireDue_promises (now w + dt)%N (timers w) (promises w) p) as HP.
    destruct (fireDue _ _ _) as [ts ps]. simpl in *. rewrite HP, H. simpl.
    destruct (existsb _ _); [|reflexivity]. now destruct s.
Qed.

Lemma run_settled (evs : list Event) (w : World) (p : nat) (s : PromiseState) :
  s <> Pending ->
  promiseState w p = Some s ->
  promiseState (fst (run w evs)) p = Some s.
Proof.
  revert w. induction evs as [|ev evs IH]; intros w Hs H; [assumption|].
  rewrite run_cons. now apply IH, step_settled.
Qed.

Lemma waiting_step (h : nat) (d : N) (w : World) (ev : Event) :
  waiting h d w -> completes w ev = false -> waiting h d (fst (step w ev)).
Proof.
  intros [Hwf Hst] Hnc. split; [now apply wellFormed_step|].
  destruct ev as [s|s m|s|t| |dt]; try exact Hst.
  - (* data *) cbn [step]. rewrite (onData_incomplete _ _ _ Hnc). exact Hst.
  - (* requestResponses *)
    unfold promiseState, timerArmed in *. simpl.
    destruct Hst as [(Ht & Hp)|(Hn & Ht & Hp)]; [left|right];
      repeat split; auto.
    + now apply nth_error_app_Some.
    + now apply nth_error_app_Some.
    + destruct (nth_error (timers w) h) as [tm|] eqn:E.
      * now rewrite (nth_error_app_Some _ E).
      * exfalso. destruct Hwf as (Hlen & _).
        apply nth_error_None in E. rewrite <- Hlen in E.
        apply nth_error_None in E. congruence.
    + now apply nth_error_app_Some.
  - (* time passes *)
    unfold promiseState, timerArmed in *. simpl. unfold elapse.
    pose proof (fireDue_timers (now w + dt)%N (timers w) (promises w) h) as HT.
    pose proof (fireDue_promises (now w + dt)%N (timers w) (promises w) h) as HP.
    rewrite (wellFormed_rejecters w _ h Hwf) in HP.
    destruct (fireDue _ _ _) as [ts ps]. simpl in *.
    destruct Hst as [(Ht & Hp)|(Hn & Ht & Hp)].
    + rewrite Ht in HT, HP. rewrite Hp in HP. simpl in HT, HP.
      unfold due in HT, HP. simpl in HT, HP.
      destruct (N.leb_spec d (now w + dt)).
      * right. rewrite HT. simpl. auto.
      * left. auto.
    + right. split; [lia|]. rewrite HT, HP, Hp.
      destruct (nth_error (timers w) h) as [tm|]; simpl; auto.
      unfold due. rewrite Ht. simpl. auto.
Qed.

Lemma waiting_run (h : nat) (d : N) (evs : list Event) (w : World) :
  waiting h d w -> noCompletion w evs = true -> waiting h d (fst (run w evs)).
Proof.
  revert w. induction evs as [|ev evs IH]; intros w Hw Hnc; [assumption|].
  simpl in Hnc. apply andb_prop in Hnc as [H1 H2].
  apply Bool.negb_true_iff in H1.
  rewrite run_cons. apply IH; [now apply waiting_step | assumption].
Qed.

Lemma requestResponses_waiting (w : World) (timeout : option N) :
  wellFormed w ->
  waiting (List.length (timers w))
          (now w + setTimeoutDelay
                     match timeout with Some t => t | None => 60000 end)%N
          (fst (fst (requestResponses w timeout))).
Proof.
  intros Hwf.
  assert (Hwf1 : wellFormed (fst (step w (RequestResponses timeout))))
    by now apply wellFormed_step.
  split; [exact Hwf1|]. left.
  destruct Hwf as (Hlen & _).
  unfold promiseState. simpl. split.
  - rewrite nth_error_app2, Nat.sub_diag by lia. simpl. now rewrite Hlen.
  - rewrite nth_error_app2 by lia. now rewrite Hlen, Nat.sub_diag.
Qed.

(** The delay [setTimeout] sets is the one asked for when that is
    between 1 and [TIMEOUT_MAX]; it is never longer than the one asked
    for, but for 0, and never below 1. *)
Lemma setTimeoutDelay_spec (after : N) :
  ((1 <= after <= TIMEOUT_MAX)%N -> setTimeoutDelay after = after)
  /\ ((1 <= after)%N -> (setTimeoutDelay after <= after)%N)
  /\ (1 <= setTimeoutDelay after <= TIMEOUT_MAX)%N.
Proof.
  unfold setTimeoutDelay, TIMEOUT_MAX.
  destruct (N.leb_spec 1 after), (N.leb_spec after 2147483647); simpl;
    repeat split; intros; lia.
Qed.

(** C7: a call of [requestResponses] gets a timer and a promise of its
    own and leaves the round state and the other timers and promises as
    they are.  The timer is set to the delay [setTimeout] makes of the
    timeout: the timeout itself from 1 to [TIMEOUT_MAX], and never more
    than the timeout when that is 1 or more.  While no message
    completes the round, the promise is pending and the timer armed
    before the deadline; once the clock reaches the deadline, and so
    once the timeout has passed, the promise is rejected with the
    timeout error, for good.  When a message completes the round before
    the deadline, the timers of all registered callbacks are cleared at
    once, their pending promises are resolved together, and the promise
    of this call stays resolved whatever follows. *)
Theorem requestResponses_timer :
  forall (w : World) (timeout : N) (evs : list Event) (ev : Event),
    reachable w ->
    let d := setTimeoutDelay timeout in
    let w1 := fst (fst (requestResponses w (Some timeout))) in
    let p := snd (fst (requestResponses w (Some timeout))) in
    let h := List.length (timers w) in
    let w2 := fst (run w1 evs) in
    let w3 := fst (step w2 ev) in
    timers w1 = timers w ++ [mkTimer (now w + d)%N p true]
    /\ promises w1 = promises w ++ [Pending]
    /\ p = List.length (promises w)
    /\ mspResponses (server w1) = mspResponses (server w)
    /\ externalMspIds (server w1) = externalMspIds (server w)
    /\ ((1 <= timeout <= TIMEOUT_MAX)%N -> d = timeout)
    /\ (noCompletion w1 evs = true ->
        ((elapsed evs < d)%N ->
         promiseState w2 p = Some Pending /\ timerArmed w2 h = true)
        /\ (forall dt later,
              (d <= elapsed evs + dt)%N ->
              promiseState (fst (run w2 (Elapse dt :: later))) p
              = Some (RejectedWith TIMEOUT_ERROR))
        /\ (forall dt later,
              (1 <= timeout)%N ->
              (timeout <= elapsed evs + dt)%N ->
              promiseState (fst (run w2 (Elapse dt :: later))) p
              = Some (RejectedWith TIMEOUT_ERROR))
        /\ ((elapsed evs < d)%N ->
            completes w2 ev = true ->
            timerArmed w3 h = false
            /\ promiseState w3 p = Some Resolved
            /\ (forall cb, In cb (waitResponsesCbs (server w2)) ->
                  timerArmed w3 (cb_handle cb) = false
                  /\ (promiseState w2 (cb_resolve cb) = Some Pending ->
                      promiseState w3 (cb_resolve cb) = Some Resolved))
            /\ (forall later,
                  promiseState (fst (run w3 later)) p = Some Resolved))).
Proof.
  intros w timeout evs ev Hr d w1 p h w2 w3.
  pose proof (reachable_wellFormed w Hr) as Hwf.
  assert (Hph : p = h) by (destruct Hwf as (Hlen & _); exact Hlen).
  do 5 (split; [reflexivity|]).
  split; [apply setTimeoutDelay_spec|].
  intros Hnc.
  pose proof (requestResponses_waiting w (Some timeout) Hwf) as Hw1.
  pose proof (waiting_run _ _ evs _ Hw1 Hnc) as Hw2.
  change (waiting h (now w + d)%N w2) in Hw2.
  assert (Hnow : now w2 = (now w + elapsed evs)%N)
    by (unfold w2; now rewrite run_now).
  assert (Hbefore : (elapsed evs < d)%N ->
            nth_error (timers w2) h = Some (mkTimer (now w + d)%N h true)
            /\ promiseState w2 h = Some Pending).
  { intros Hlt. destruct Hw2 as [_ [H|(Hge & _)]]; [exact H | lia]. }
  assert (Hout : forall dt later,
            (d <= elapsed evs + dt)%N ->
            promiseState (fst (run w2 (Elapse dt :: later))) p
            = Some (RejectedWith TIMEOUT_ERROR)).
  { intros dt later Hge. rewrite Hph, run_cons.
    apply run_settled; [discriminate|].
    assert (Hw3 : waiting h (now w + d)%N (fst (step w2 (Elapse dt))))
      by now apply waiting_step.
    destruct Hw3 as [_ [[Ht _]|(_ & _ & H)]]; [|exact H].
    exfalso. revert Ht. cbn [step]. unfold elapse.
    pose proof (fireDue_timers (now w2 + dt)%N (timers w2) (promises w2) h) as HT.
    destruct (fireDue _ _ _) as [ts ps]. simpl in *. rewrite HT.
    destruct (nth_error (timers w2) h) as [tm|]; [|discriminate].
    simpl. unfold due. destruct (armed tm) eqn:Ea; simpl.
    + destruct (N.leb_spec (deadline tm) (now w2 + dt)) as [Hle|Hgt].
      * discriminate.
      * intros E. injection E as E. rewrite E in Hgt. simpl in Hgt. lia.
    + intros E. injection E as E. rewrite E in Ea. discriminate. }
  split; [|split; [exact Hout|split]].
  - intros Hlt. destruct (Hbefore Hlt) as [H1 H2]. rewrite Hph.
    split; [assumption|]. unfold timerArmed. now rewrite H1.
  - intros dt later H1 Hge. apply Hout.
    pose proof (proj1 (proj2 (setTimeoutDelay_spec timeout)) H1).
    fold d in H. lia.
  - intros Hlt Hc. destruct (Hbefore Hlt) as [H1 H2].
    assert (Hin : In (mkCallback h h) (waitResponsesCbs (server w2))).
    { apply run_waitResponsesCbs_incl. unfold w1. simpl.
      apply in_or_app. right. left. f_equal. exact Hph. }
    assert (Hrel : forall cb, In cb (waitResponsesCbs (server w2)) ->
              timerArmed w3 (cb_handle cb) = false
              /\ (promiseState w2 (cb_resolve cb) = Some Pending ->
                  promiseState w3 (cb_resolve cb) = Some Resolved)).
    { intros cb Hcb. unfold w3.
      destruct ev as [s|s m|s|t| |dt]; try discriminate.
      cbn [step]. rewrite (onData_complete _ _ _ Hc).
      apply (runCallbacks_releases w2 cb Hcb). }
    destruct (Hrel _ Hin) as [Ha Hp]. simpl in Ha, Hp.
    rewrite Hph.
    split; [exact Ha|]. split; [exact (Hp H2)|]. split; [exact Hrel|].
    intros later. apply run_settled; [discriminate | exact (Hp H2)].
Qed.

(** Two overlapping calls with timeouts 100 and 300: after 150 ms with
    no report the first has timed out and the second still waits; the
    report that then completes the round releases the second, and the
    first stays rejected. *)
Lemma requestResponses_timer_witness :
  let w := fst (run (fresh ["A"; "B"]) [Connection 1; RequestResponses (Some 100%N)]) in
  let evs := [Elapse 150%N; Data 1 "A"] in
  let w1 := fst (fst (requestResponses w (Some 300%N))) in
  let w2 := fst (run w1 evs) in
  reachable w
  /\ noCompletion w1 evs = true
  /\ (1 <= 300 <= TIMEOUT_MAX)%N
  /\ (elapsed evs < setTimeoutDelay 300)%N
  /\ (300 <= elapsed evs + 150)%N
  /\ completes w2 (Data 1 "B") = true
  /\ setTimeoutDelay 300 = 300%N
  /\ promiseState w2 0 = Some (RejectedWith TIMEOUT_ERROR)
  /\ promiseState w2 1 = Some Pending
  /\ timerArmed w2 1 = true
  /\ promiseState (fst (run w2 [Elapse 150%N])) 1
     = Some (RejectedWith TIMEOUT_ERROR)
  /\ timerArmed (fst (step w2 (Data 1 "B"))) 1 = false
  /\ promiseState (fst (step w2 (Data 1 "B"))) 1 = Some Resolved
  /\ promiseState (fst (run (fst (step w2 (Data 1 "B"))) [Elapse 1000%N])) 1
     = Some Resolved.
Proof.
  intros w evs w1 w2.
  assert (Hr : reachable w).
  { exists (mkOpts None None (Some ["A"; "B"]) None), 0%N, (fresh ["A"; "B"]).
    eexists. split; reflexivity. }
  assert (Hnc : noCompletion w1 evs = true) by reflexivity.
  assert (Hb : (1 <= 300 <= TIMEOUT_MAX)%N) by (unfold TIMEOUT_MAX; lia).
  assert (Hlt : (elapsed evs < setTimeoutDelay 300)%N) by reflexivity.
  assert (Hge : (300 <= elapsed evs + 150)%N) by (simpl; lia).
  assert (H1 : (1 <= 300)%N) by lia.
  assert (Hc : completes w2 (Data 1 "B") = true) by reflexivity.
  destruct (requestResponses_timer w 300%N evs (Data 1 "B") Hr)
    as (_ & _ & _ & _ & _ & Hd & H).
  destruct (H Hnc) as (Hpend & _ & Hout & Hdone).
  destruct (Hpend Hlt) as [Hp Ha].
  destruct (Hdone Hlt Hc) as (Ha3 & Hp3 & _ & Hlater).
  split; [exact Hr|]. split; [exact Hnc|]. split; [exact Hb|].
  split; [exact Hlt|]. split; [exact Hge|]. split; [exact Hc|].
  split; [exact (Hd Hb)|].
  split; [reflexivity|].
  split; [exact Hp|]. split; [exact Ha|].
  split; [exact (Hout 150%N [] H1 Hge)|].
  split; [exact Ha3|]. split; [exact Hp3|].
  exact (Hlater [Elapse 1000%N]).
Defined.

(** A timeout above [TIMEOUT_MAX], and a timeout of 0, are set as a
    delay of 1 ms: the call is rejected after 1 ms without a report. *)
Example timeout_out_of_range_fires_after_1ms :
  let w := fresh ["A"; "B"] in
  let big := fst (fst (requestResponses w (Some 2147483648%N))) in
  let zero := fst (fst (requestResponses w (Some 0%N))) in
  promiseState (fst (run big [Elapse 0%N])) 0 = Some Pending
  /\ promiseState (fst (run big [Elapse 1%N])) 0
     = Some (RejectedWith TIMEOUT_ERROR)
  /\ promiseState (fst (run zero [Elapse 0%N])) 0 = Some Pending
  /\ promiseState (fst (run zero [Elapse 1%N])) 0
     = Some (RejectedWith TIMEOUT_ERROR).
Proof. repeat split. Qed.

(** The example of the specification: with A and B expected and no
    report, [requestResponses(100)] is rejected with the timeout error
    once 100 ms have passed. *)
Example timeout_fires :
  let w1 := fst (fst (requestResponses (fresh ["A"; "B"]) (Some 100%N))) in
  promiseState (fst (run w1 [Elapse 99%N])) 0 = Some Pending
  /\ promiseState (fst (run w1 [Elapse 99%N; Elapse 1%N])) 0
     = Some (RejectedWith TIMEOUT_ERROR).
Proof. split; reflexivity. Qed.

(** The end-to-end example of the specification: orgB and orgC
    expected, two sockets, [requestResponses(5000)]; the round is open
    after "orgB" and the promise resolved after "orgC". *)
Example end_to_end :
  let w := fst (run (fresh ["orgB"; "orgC"])
                  [Connection 1; Connection 2; RequestResponses (Some 5000%N)]) in
  promiseState (fst (run w [Data 1 "orgB"])) 0 = Some Pending
  /\ promiseState (fst (run w [Data 1 "orgB"; Data 2 "orgC"])) 0 = Some Resolved
  /\ mspResponses (server (fst (run w [Data 1 "orgB"; Data 2 "orgC"]))) = [].
Proof. repeat split. Qed.

(** *** Construction *)

Lemma externalPeers_fcw (userMspId : string) (peers : list Peer) :
  forallb isFcwPeer peers = true ->
  exists kept,
    externalPeers userMspId peers = inr kept
    /\ forallb isFcwPeer kept = true
    /\ forall p, In p kept <->
         In p peers
         /\ exists ids, getAdminMspIds p = Some ids /\ ~ In userMspId ids.
Proof.
  induction peers as [|peer rest IH]; simpl; intros Hall.
  - exists []. split; [reflexivity|]. split; [reflexivity|].
    intros p. simpl. tauto.
  - apply andb_prop in Hall as [Hp Hrest].
    destruct (IH Hrest) as (kept & -> & Hk & Hin).
    destruct peer as [url|url m ids]; [discriminate|]. simpl.
    destruct (includes userMspId ids) eqn:Hinc; simpl.
    + exists kept. split; [reflexivity|]. split; [assumption|].
      intros p. rewrite Hin. split; [tauto|].
      intros [[<-|H1] H2]; [|auto].
      destruct H2 as (ids' & E & Hn). simpl in E. injection E as <-.
      apply includes_In in Hinc. contradiction.
    + exists (FcwPeer url m ids :: kept). simpl. rewrite Hk.
      apply includes_false in Hinc.
      split; [reflexivity|]. split; [reflexivity|].
      intros p. rewrite Hin. split.
      * intros [<-|H]; [|tauto]. split; [now left|]. exists ids. auto.
      * intros [[<-|H1] H2]; auto.
Qed.

Lemma mspIdsOf_fcw (peers : list Peer) :
  forallb isFcwPeer peers = true ->
  exists ms,
    mspIdsOf peers = inr ms
    /\ forall m, In m ms <-> exists p, In p peers /\ getMspId p = Some m.
Proof.
  induction peers as [|peer rest IH]; simpl; intros Hall.
  - exists []. split; [reflexivity|]. simpl. split; [tauto|].
    intros (p & [] & _).
  - apply andb_prop in Hall as [Hp Hrest].
    destruct (IH Hrest) as (ms & -> & Hin).
    destruct peer as [url|url m ids]; [discriminate|]. simpl.
    exists (m :: ms). split; [reflexivity|]. intros x. simpl. split.
    + intros [<-|H]; [exists (FcwPeer url m ids); auto|].
      apply Hin in H as (p & H1 & H2). exists p. auto.
    + intros (p & [<-|H1] & H2); [left; simpl in H2; congruence|].
      right. apply Hin. exists p. auto.
Qed.

(** A channel with a plain peer makes the derivation throw: the filter
    of line 30 calls [getAdminMspIds] on every peer. *)
Lemma externalPeers_plain (userMspId : string) (peers : list Peer) :
  forallb isFcwPeer peers = false ->
  externalPeers userMspId peers = inl TYPE_ERROR.
Proof.
  induction peers as [|peer rest IH]; simpl; [discriminate|].
  destruct peer as [url|url m ids]; simpl; [reflexivity|].
  intros H. now rewrite (IH H).
Qed.

(** Lines 26-34: the expected identifiers, or the error thrown. *)
Lemma constructor_externalMspIds_spec (o : DistributedSetupChannelServerOpts) :
  (constructor_externalMspIds o = inl CONFIG_ERROR
   <-> opt_externalMspIds o = None
       /\ (opt_userClient o = None \/ opt_channel o = None))
  /\ (forall ids,
        opt_externalMspIds o = Some ids ->
        constructor_externalMspIds o = inr ids)
  /\ (forall userClient channel,
        opt_externalMspIds o = None ->
        opt_userClient o = Some userClient ->
        opt_channel o = Some channel ->
        forallb isFcwPeer (getPeers channel) = true ->
        exists ids,
          constructor_externalMspIds o = inr ids
          /\ NoDup ids
          /\ forall m, In m ids <->
               exists url admins,
                 In (FcwPeer url m admins) (getPeers channel)
                 /\ ~ In (mspId userClient) admins).
Proof.
  unfold constructor_externalMspIds.
  split; [|split].
  - destruct (opt_externalMspIds o) as [ids|].
    { split; [discriminate | intros [H _]; discriminate]. }
    destruct (opt_userClient o) as [uc|], (opt_channel o) as [ch|];
      try (split; [auto | reflexivity]).
    split; [|intros [_ [H|H]]; discriminate].
    destruct (externalPeers (mspId uc) (getPeers ch)) as [e|ext] eqn:E1.
    + assert (e = TYPE_ERROR) as ->.
      { clear -E1. revert e E1.
        induction (getPeers ch) as [|peer rest IH]; simpl; intros e E1;
          [discriminate|].
        destruct (getAdminMspIds peer); [|congruence].
        destruct (externalPeers (mspId uc) rest) as [e'|k]; [|
          destruct (negb _); discriminate].
        injection E1 as <-. now apply IH. }
      discriminate.
    + destruct (mspIdsOf ext) as [e|ms] eqn:E2; [|discriminate].
      assert (e = TYPE_ERROR) as ->; [|discriminate].
      clear -E2. revert e E2. induction ext as [|peer rest IH]; simpl;
        intros e E2; [discriminate|].
      destruct (getMspId peer); [|congruence].
      destruct (mspIdsOf rest) as [e'|k]; [|discriminate].
      injection E2 as <-. now apply IH.
  - intros ids ->. reflexivity.
  - intros uc ch -> -> -> Hall.
    destruct (externalPeers_fcw (mspId uc) (getPeers ch) Hall)
      as (kept & -> & Hk & Hin).
    destruct (mspIdsOf_fcw kept Hk) as (ms & -> & Hms).
    exists (uniq ms). split; [reflexivity|]. split; [apply uniq_NoDup|].
    intros m. rewrite uniq_In, Hms. split.
    + intros (p & Hp & Hm). apply Hin in Hp as (Hp & ids & Ha & Hn).
      destruct p as [url|url m' admins]; [discriminate|]. simpl in *.
      injection Hm as <-. injection Ha as <-. exists url, admins. auto.
    + intros (url & admins & Hp & Hn). exists (FcwPeer url m admins).
      split; [|reflexivity]. apply Hin. split; [assumption|].
      exists admins. auto.
Qed.

(** C8: construction fails with the configuration error, and makes no
    server, exactly when no expected identifiers are given and the user
    client or the channel is missing.  With a port the listener accepts
    (below 65536, the default among them), given identifiers are taken
    as they are, and, derived from a user client and a channel of
    wrapper peers, the expected identifiers are, without duplicates,
    the organization identifiers of the peers whose admin identifiers
    do not include the user's organization.  With any other port
    construction fails too, and whatever is constructed is a fresh
    server: nobody connected, nothing reported, nobody waiting. *)
Theorem constructor_expected_identifiers :
  forall (o : DistributedSetupChannelServerOpts) (t0 : N),
    (constructor o t0 = inl CONFIG_ERROR
     <-> opt_externalMspIds o = None
         /\ (opt_userClient o = None \/ opt_channel o = None))
    /\ (forall ids,
          opt_externalMspIds o = Some ids ->
          (listenPort (opt_port o) < 65536)%N ->
          constructor o t0
          = inr (mkWorld (mkServer [] ids [] [] false) t0 [] []
                         (listenPort (opt_port o))))
    /\ (forall userClient channel,
          opt_externalMspIds o = None ->
          opt_userClient o = Some userClient ->
          opt_channel o = Some channel ->
          forallb isFcwPeer (getPeers channel) = true ->
          (listenPort (opt_port o) < 65536)%N ->
          exists ids,
            constructor o t0
            = inr (mkWorld (mkServer [] ids [] [] false) t0 [] []
                           (listenPort (opt_port o)))
            /\ NoDup ids
            /\ forall m, In m ids <->
                 exists url admins,
                   In (FcwPeer url m admins) (getPeers channel)
                   /\ ~ In (mspId userClient) admins)
    /\ ((65536 <= listenPort (opt_port o))%N ->
        exists e, constructor o t0 = inl e
                  /\ (e = RANGE_ERROR \/ constructor_externalMspIds o = inl e))
    /\ (forall w,
          constructor o t0 = inr w ->
          (listening w < 65536)%N
          /\ constructor_externalMspIds o = inr (externalMspIds (server w))
          /\ clients (server w) = []
          /\ mspResponses (server w) = []
          /\ waitResponsesCbs (server w) = []
          /\ requesting (server w) = false).
Proof.
  intros o t0.
  destruct (constructor_externalMspIds_spec o) as (Hcfg & Hgiven & Hderived).
  unfold constructor.
  split; [|split; [|split; [|split]]].
  - split.
    + intros H. apply Hcfg.
      destruct (constructor_externalMspIds o) as [e|ids];
        [now injection H as -> | destruct (N.ltb _ _); discriminate].
    + intros H. apply Hcfg in H. now rewrite H.
  - intros ids He Hp. rewrite (Hgiven ids He).
    apply N.ltb_lt in Hp. now rewrite Hp.
  - intros uc ch He Hu Hc Hall Hp.
    destruct (Hderived uc ch He Hu Hc Hall) as (ids & -> & Hnd & Hin).
    exists ids. apply N.ltb_lt in Hp. rewrite Hp. auto.
  - intros Hp. apply N.ltb_ge in Hp. rewrite Hp.
    destruct (constructor_externalMspIds o) as [e|ids]; eauto.
  - intros w.
    destruct (constructor_externalMspIds o) as [e|ids]; [discriminate|].
    destruct (N.ltb_spec (listenPort (opt_port o)) 65536) as [Hlt|Hge];
      [|discriminate].
    intros Hw. injection Hw as <-. simpl. repeat split. exact Hlt.
Qed.

Lemma constructor_expected_identifiers_witness :
  let org1 := mkUserClient "Org1MSP" (fun _ _ => Never) (fun _ _ => Never) in
  let channel :=
    mkChannel "mychannel"
      [FcwPeer "peer0.org1" "Org1MSP" ["Org1MSP"];
       FcwPeer "peer0.org2" "Org2MSP" ["Org2MSP"];
       FcwPeer "peer1.org2" "Org2MSP" ["Org2MSP"];
       FcwPeer "peer0.org3" "Org3MSP" ["Org3MSP"; "Org1MSP"]] in
  constructor (mkOpts (Some org1) None None None) 0%N = inl CONFIG_ERROR
  /\ (listenPort None < 65536)%N
  /\ constructor (mkOpts None None (Some ["A"; "B"]) None) 0%N
     = inr (fresh ["A"; "B"])
  /\ forallb isFcwPeer (getPeers channel) = true
  /\ (listenPort (Some 7000%N) < 65536)%N
  /\ constructor (mkOpts (Some org1) (Some channel) None (Some 7000%N)) 0%N
     = inr (mkWorld (mkServer [] ["Org2MSP"] [] [] false) 0%N [] [] 7000%N)
  /\ (65536 <= listenPort (Some 70000%N))%N
  /\ constructor (mkOpts None None (Some ["A"; "B"]) (Some 70000%N)) 0%N
     = inl RANGE_ERROR.
Proof.
  intros org1 channel.
  assert (Hd : (listenPort None < 65536)%N) by reflexivity.
  assert (H7 : (listenPort (Some 7000%N) < 65536)%N) by reflexivity.
  assert (H70 : (65536 <= listenPort (Some 70000%N))%N)
    by (apply N.leb_le; reflexivity).
  split.
  { apply (constructor_expected_identifiers (mkOpts (Some org1) None None None)).
    split; [reflexivity | right; reflexivity]. }
  split; [exact Hd|]. split.
  { apply (constructor_expected_identifiers
             (mkOpts None None (Some ["A"; "B"]) None) 0%N);
      [reflexivity | exact Hd]. }
  split; [reflexivity|]. split; [exact H7|]. split.
  { destruct (constructor_expected_identifiers
                (mkOpts (Some org1) (Some channel) None (Some 7000%N)) 0%N)
      as (_ & _ & H & _).
    destruct (H org1 channel eq_refl eq_refl eq_refl eq_refl H7)
      as (ids & E & _).
    rewrite E. vm_compute in E. injection E as <-. reflexivity. }
  split; [exact H70|].
  destruct (constructor_expected_identifiers
              (mkOpts None None (Some ["A"; "B"]) (Some 70000%N)) 0%N)
    as (_ & _ & _ & H & _).
  destruct (H H70) as (e & E & _). rewrite E. vm_compute in E.
  now injection E as <-.
Defined.

End ChannelSetupServerFacts.

(** ** The fan-out operations *)

Module MultiUserClientFacts.
Import Js JsFacts Fabric MultiUserClient.

(** *** The two loops *)

Lemma joinChannel_forEach_spec (opts : option JoinChannelOpts)
  (ucs : list UserClient) (peers : list Peer)
  (calls : list (UserClient * JoinChannelOpts)) :
  joinChannel_forEach opts ucs peers calls
  = calls
    ++ map (fun x => (fst x, ownedPeersJoinChannelOpts opts (snd x)))
           (filter nonEmpty (ownedPeersPerClient ucs peers)).
Proof.
  revert peers calls. induction ucs as [|uc rest IH]; intros peers calls; simpl.
  - now rewrite app_nil_r.
  - unfold nonEmpty at 1. simpl.
    destruct (Nat.ltb 0 (List.length (filter (administers (mspId uc)) peers)));
      rewrite IH; simpl; [now rewrite <- app_assoc | reflexivity].
Qed.

Lemma installChaincode_forEach_spec (req : ChaincodeInstallRequest)
  (ucs : list UserClient) (peers : list Peer)
  (calls : list (UserClient * ChaincodeInstallRequest)) :
  installChaincode_forEach req ucs peers calls
  = calls
    ++ map (fun x => (fst x, ownedPeersChaincodeInstallRequest req (snd x)))
           (filter nonEmpty (ownedPeersPerClient ucs peers)).
Proof.
  revert peers calls. induction ucs as [|uc rest IH]; intros peers calls; simpl.
  - now rewrite app_nil_r.
  - unfold nonEmpty at 1. simpl.
    destruct (Nat.ltb 0 (List.length (filter (administers (mspId uc)) peers)));
      rewrite IH; simpl; [now rewrite <- app_assoc | reflexivity].
Qed.

Lemma joinChannelPartitions_spec (this : MultiUserClient) (channel : Channel)
  (opts : option JoinChannelOpts) :
  joinChannelPartitions this channel opts
  = filter nonEmpty
      (ownedPeersPerClient (userClients this)
         (filter isFcwPeer (getPeers channel))).
Proof.
  unfold joinChannelPartitions, joinChannelCalls.
  rewrite joinChannel_forEach_spec. simpl. rewrite map_map.
  rewrite <- (map_id (filter nonEmpty _)) at 2. apply map_ext.
  intros [uc owned]. now destruct opts.
Qed.

Lemma installChaincodePartitions_spec (this : MultiUserClient)
  (req : ChaincodeInstallRequest) :
  installChaincodePartitions this req
  = filter nonEmpty
      (ownedPeersPerClient (userClients this)
         (filter isFcwPeer (cir_targets req))).
Proof.
  unfold installChaincodePartitions, installChaincodeCalls.
  rewrite installChaincode_forEach_spec. simpl. rewrite map_map.
  rewrite <- (map_id (filter nonEmpty _)) at 2. apply map_ext.
  now intros [uc owned].
Qed.

(** The predicate of [remove] only meets peers that have the method. *)
Lemma isFcwPeer_getAdminMspIds (p : Peer) :
  isFcwPeer p = true -> exists ids, getAdminMspIds p = Some ids.
Proof. destruct p; simpl; [discriminate | eauto]. Qed.

(** *** Partitions *)

Lemma administers_adminOwners (m : string) (p : Peer) :
  administers m p = true <-> In m (adminOwners p).
Proof.
  unfold administers, adminOwners. destruct (getAdminMspIds p).
  - apply includes_In.
  - simpl. split; [discriminate | contradiction].
Qed.

Lemma adminOwners_isFcwPeer (m : string) (p : Peer) :
  In m (adminOwners p) -> isFcwPeer p = true.
Proof. destruct p; simpl; [contradiction | reflexivity]. Qed.

Lemma ownedPeersPerClient_In (ucs : list UserClient) (peers : list Peer)
  (x : UserClient * list Peer) (p : Peer) :
  In x (ownedPeersPerClient ucs peers) -> In p (snd x) ->
  In (fst x) ucs /\ In p peers /\ administers (mspId (fst x)) p = true.
Proof.
  revert peers. induction ucs as [|uc rest IH]; intros peers; simpl;
    [contradiction|].
  intros [<-|Hx] Hp.
  - simpl in *. apply filter_In in Hp. tauto.
  - destruct (IH _ Hx Hp) as (H1 & H2 & H3). apply filter_In in H2. tauto.
Qed.

(** No node of a part is in a later part. *)
Lemma ownedPeersPerClient_disjoint (ucs : list UserClient) (peers : list Peer) :
  ForallOrdPairs (fun a b => forall p, In p (snd a) -> ~ In p (snd b))
                 (ownedPeersPerClient ucs peers).
Proof.
  revert peers. induction ucs as [|uc rest IH]; intros peers; simpl;
    constructor; [|apply IH].
  apply Forall_forall. intros x Hx p Hp Hq. simpl in Hp.
  apply filter_In in Hp as [_ Hp].
  destruct (ownedPeersPerClient_In _ _ _ _ Hx Hq) as (_ & H & _).
  apply filter_In in H as [_ H]. rewrite Hp in H. discriminate.
Qed.

Lemma ForallOrdPairs_filter {A} (R : A -> A -> Prop) (f : A -> bool)
  (l : list A) :
  ForallOrdPairs R l -> ForallOrdPairs R (filter f l).
Proof.
  induction 1 as [|a l Ha Hl IH]; simpl; [constructor|].
  destruct (f a); [constructor|]; auto.
  rewrite Forall_forall in *. intros x Hx. apply Ha.
  now apply filter_In in Hx.
Qed.

Lemma ForallOrdPairs_nth {A} (R : A -> A -> Prop) (l : list A) :
  ForallOrdPairs R l ->
  forall i j a b,
    i < j -> nth_error l i = Some a -> nth_error l j = Some b -> R a b.
Proof.
  induction 1 as [|x l Hx Hl IH]; intros i j a b Hlt Hi Hj.
  - now destruct i.
  - destruct j as [|j]; [lia|]. simpl in Hj. destruct i as [|i]; simpl in Hi.
    + injection Hi as <-. rewrite Forall_forall in Hx.
      eapply Hx, nth_error_In, Hj.
    + apply (IH i j); auto. lia.
Qed.

(** The first client that may administer a node takes it. *)
Lemma ownedPeersPerClient_first (before after : list UserClient)
  (uc : UserClient) (peers : list Peer) (p : Peer) :
  In p peers ->
  (forall c, In c before -> administers (mspId c) p = false) ->
  administers (mspId uc) p = true ->
  exists owned,
    In (uc, owned) (ownedPeersPerClient (before ++ uc :: after) peers)
    /\ In p owned.
Proof.
  revert peers. induction before as [|c b IH]; intros peers Hp Hb Hu; simpl.
  - eexists. split; [left; reflexivity|]. apply filter_In. auto.
  - destruct (IH (filter (fun x => negb (administers (mspId c) x)) peers))
      as (owned & H1 & H2); auto.
    + apply filter_In. split; [assumption|]. rewrite Hb; simpl; auto.
    + intros c' Hc'. apply Hb. now right.
    + exists owned. auto.
Qed.

Lemma first_match (ucs : list UserClient) (p : Peer) :
  (exists uc, In uc ucs /\ In (mspId uc) (adminOwners p)) ->
  exists before uc after,
    ucs = before ++ uc :: after
    /\ (forall c, In c before -> ~ In (mspId c) (adminOwners p))
    /\ In (mspId uc) (adminOwners p).
Proof.
  induction ucs as [|c rest IH]; intros (uc & Hin & Hm); [contradiction|].
  destruct (administers (mspId c) p) eqn:E.
  - exists [], c, rest. apply administers_adminOwners in E.
    repeat split; auto; contradiction.
  - destruct Hin as [->|Hin].
    { apply administers_adminOwners in Hm. congruence. }
    destruct IH as (b & u & a & -> & Hb & Hu); [eauto|].
    exists (c :: b), u, a. repeat split; auto.
    intros c' [<-|Hc']; [|auto].
    rewrite <- administers_adminOwners, E. discriminate.
Qed.

(** What either loop computes is a partition in the sense of
    [wellPartitioned]. *)
Lemma ownedPeersPerClient_wellPartitioned (ucs : list UserClient)
  (targets : list Peer) :
  wellPartitioned ucs targets
    (filter nonEmpty (ownedPeersPerClient ucs (filter isFcwPeer targets))).
Proof.
  set (L := ownedPeersPerClient ucs (filter isFcwPeer targets)).
  assert (Hdis : forall i j a b p,
            i <> j -> nth_error (filter nonEmpty L) i = Some a ->
            nth_error (filter nonEmpty L) j = Some b ->
            In p (snd a) -> ~ In p (snd b)).
  { intros i j a b p Hij Hi Hj Ha Hb.
    pose proof (ForallOrdPairs_nth _ _
                  (ForallOrdPairs_filter _ nonEmpty _
                     (ownedPeersPerClient_disjoint ucs
                        (filter isFcwPeer targets)))) as H.
    fold L in H.
    destruct (Nat.lt_total i j) as [Hlt|[Heq|Hgt]]; [|contradiction|].
    - exact (H i j a b Hlt Hi Hj p Ha Hb).
    - exact (H j i b a Hgt Hj Hi p Hb Ha). }
  split; [|split; [exact Hdis|split]].
  - intros x p Hx Hp. apply filter_In in Hx as [Hx _].
    destruct (ownedPeersPerClient_In _ _ _ _ Hx Hp) as (_ & H & _).
    now apply filter_In in H.
  - intros p Hp Hex.
    destruct (first_match ucs p Hex) as (before & uc & after & E & Hb & Hu).
    destruct (ownedPeersPerClient_first before after uc
                (filter isFcwPeer targets) p) as (owned & Hin & Hpo).
    + apply filter_In. split; [assumption|].
      eapply adminOwners_isFcwPeer, Hu.
    + intros c Hc. specialize (Hb c Hc).
      rewrite <- administers_adminOwners in Hb.
      now destruct (administers (mspId c) p).
    + now apply administers_adminOwners.
    + rewrite <- E in Hin. fold L in Hin.
      assert (Hf : In (uc, owned) (filter nonEmpty L)).
      { apply filter_In. split; [assumption|]. unfold nonEmpty. simpl.
        apply Nat.ltb_lt. destruct owned; [contradiction | simpl; lia]. }
      apply In_nth_error in Hf as [i Hi].
      exists i, before, uc, after, owned. repeat split; auto.
      intros j x Hj Hx. destruct (Nat.eq_dec j i) as [|Hne]; [assumption|].
      exfalso. exact (Hdis j i x (uc, owned) p Hne Hj Hi Hx Hpo).
  - intros p Hnone x Hx Hp. apply filter_In in Hx as [Hx _].
    destruct (ownedPeersPerClient_In _ _ _ _ Hx Hp) as (Hc & _ & Ha).
    apply administers_adminOwners in Ha. exact (Hnone _ Hc Ha).
Qed.

(** C3: the parts [joinChannel] and [installChaincode] hand to the
    clients are taken from the target nodes and pairwise disjoint; a
    target that one of the clients may administer is in exactly one
    part, that of the first such client; a node no client may administer
    is in no part. *)
Theorem fan_out_partitions :
  forall (this : MultiUserClient) (channel : Channel)
         (joinChannelOpts : option JoinChannelOpts)
         (chaincodeInstallRequest : ChaincodeInstallRequest),
    wellPartitioned (userClients this) (getPeers channel)
      (joinChannelPartitions this channel joinChannelOpts)
    /\ wellPartitioned (userClients this) (cir_targets chaincodeInstallRequest)
         (installChaincodePartitions this chaincodeInstallRequest).
Proof.
  intros this channel opts req.
  rewrite joinChannelPartitions_spec, installChaincodePartitions_spec.
  split; apply ownedPeersPerClient_wellPartitioned.
Qed.

(** The partitions of a channel of three peers among two clients: the
    first client that may administer a peer takes it, the plain peer is
    left out. *)
Example partitions_of_two_clients :
  let org1 := mkUserClient "Org1MSP" (fun _ _ => Never) (fun _ _ => Never) in
  let org2 := mkUserClient "Org2MSP" (fun _ _ => Never) (fun _ _ => Never) in
  let p1 := FcwPeer "peer0.org1" "Org1MSP" ["Org1MSP"] in
  let p2 := FcwPeer "peer0.org2" "Org2MSP" ["Org2MSP"; "Org1MSP"] in
  let p3 := FcwPeer "peer1.org2" "Org2MSP" ["Org2MSP"] in
  let p4 := FcwPeer "peer0.org3" "Org3MSP" ["Org3MSP"] in
  let channel := mkChannel "mychannel" [p1; p2; PlainPeer "orderer"; p3; p4] in
  map snd (joinChannelPartitions (constructor [org1; org2] None) channel None)
  = [[p1; p2]; [p3]].
Proof. reflexivity. Qed.

Lemma fan_out_partitions_witness :
  let org1 := mkUserClient "Org1MSP" (fun _ _ => Never) (fun _ _ => Never) in
  let org2 := mkUserClient "Org2MSP" (fun _ _ => Never) (fun _ _ => Never) in
  let p1 := FcwPeer "peer0.org1" "Org1MSP" ["Org1MSP"] in
  let p2 := FcwPeer "peer0.org2" "Org2MSP" ["Org2MSP"; "Org1MSP"] in
  let p3 := FcwPeer "peer1.org2" "Org2MSP" ["Org2MSP"] in
  let p4 := FcwPeer "peer0.org3" "Org3MSP" ["Org3MSP"] in
  let channel := mkChannel "mychannel" [p1; p2; PlainPeer "orderer"; p3; p4] in
  let this := constructor [org2; org1] None in
  let parts := joinChannelPartitions this channel None in
  In p2 (getPeers channel)
  /\ (exists uc, In uc (userClients this) /\ In (mspId uc) (adminOwners p2))
  /\ map snd parts = [[p2; p3]; [p1]]
  /\ (exists i before uc after part,
        userClients this = before ++ uc :: after
        /\ (forall c, In c before -> ~ In (mspId c) (adminOwners p2))
        /\ In (mspId uc) (adminOwners p2)
        /\ nth_error parts i = Some (uc, part)
        /\ In p2 part
        /\ forall j x, nth_error parts j = Some x -> In p2 (snd x) -> j = i)
  /\ (forall x, In x parts -> ~ In p4 (snd x)).
Proof.
  intros org1 org2 p1 p2 p3 p4 channel this parts.
  destruct (fan_out_partitions this channel None
              (mkChaincodeInstallRequest [] "cc" "path" "v1" None None))
    as [(_ & _ & Hcover & Hnone) _].
  assert (Hin : In p2 (getPeers channel)) by (simpl; auto).
  assert (Hex : exists uc, In uc (userClients this)
                           /\ In (mspId uc) (adminOwners p2)).
  { exists org2. simpl. auto. }
  split; [exact Hin|]. split; [exact Hex|]. split; [reflexivity|].
  split; [exact (Hcover p2 Hin Hex)|].
  apply Hnone. intros uc [<-|[<-|[]]]; simpl; intuition discriminate.
Defined.

(** *** [Promise.all] *)

Lemma firstRejection_Some {V} (ps : list (Promise V)) (n : nat) (e : Error) :
  firstRejection ps = Some (n, e) ->
  In (Settles n (Rejected e)) ps
  /\ forall m e', In (Settles m (Rejected e')) ps -> n <= m.
Proof.
  revert n e. induction ps as [|p t IH]; intros n e; simpl; [discriminate|].
  destruct p as [|k [e0|v]].
  - intros H. destruct (IH _ _ H) as [H1 H2]. split; [auto|].
    intros m e' [E|Hin]; [discriminate | eauto].
  - destruct (firstRejection t) as [[m e1]|] eqn:E.
    + destruct (IH _ _ eq_refl) as [H1 H2].
      destruct (Nat.ltb_spec m k) as [Hlt|Hge]; intros Heq;
        injection Heq as <- <-.
      * split; [auto|]. intros m' e' [E'|Hin]; [|eauto].
        injection E' as <- _. lia.
      * split; [auto|]. intros m' e' [E'|Hin].
        -- injection E' as <- _. lia.
        -- specialize (H2 _ _ Hin). lia.
    + intros H. injection H as <- <-. split; [auto|].
      intros m' e' [E'|Hin]; [injection E' as <- _; lia|].
      exfalso. clear -E Hin. induction t as [|q t IH]; [contradiction|].
      simpl in E. destruct Hin as [->|Hin].
      * destruct (firstRejection t) as [[a b]|]; [|discriminate].
        destruct (Nat.ltb a m'); discriminate.
      * apply IH; [|assumption].
        destruct q as [|a [b|b]]; auto.
        destruct (firstRejection t) as [[c d]|]; [|reflexivity].
        destruct (Nat.ltb c a); discriminate.
  - intros H. destruct (IH _ _ H) as [H1 H2]. split; [auto|].
    intros m e' [E|Hin]; [discriminate | eauto].
Qed.

Lemma firstRejection_None {V} (ps : list (Promise V)) :
  firstRejection ps = None ->
  forall m e, ~ In (Settles m (Rejected e)) ps.
Proof.
  induction ps as [|p t IH]; simpl; intros H m e; [tauto|].
  destruct p as [|k [e0|v]].
  - intros [E|Hin]; [discriminate | eapply IH; eauto].
  - destruct (firstRejection t) as [[a b]|]; [|discriminate].
    destruct (Nat.ltb a k); discriminate.
  - intros [E|Hin]; [discriminate | eapply IH; eauto].
Qed.

Lemma allFulfilled_Some {V} (ps : list (Promise V)) (n : nat) (vs : list V) :
  allFulfilled ps = Some (n, vs) ->
  Forall2 (fun p v => exists m, p = Settles m (Fulfilled v) /\ m <= n) ps vs.
Proof.
  revert n vs. induction ps as [|p t IH]; intros n vs; simpl.
  - intros H. injection H as <- <-. constructor.
  - destruct p as [|k [e|v]]; try discriminate.
    destruct (allFulfilled t) as [[m ws]|]; [|discriminate].
    intros H. injection H as <- <-. constructor.
    + exists k. split; [reflexivity | lia].
    + eapply Forall2_impl; [|apply IH; reflexivity].
      intros a b (j & -> & Hj). exists j. split; [reflexivity | lia].
Qed.

Lemma allFulfilled_all {V} (ps : list (Promise V)) :
  (forall p, In p ps -> exists m v, p = Settles m (Fulfilled v)) ->
  exists n vs, allFulfilled ps = Some (n, vs) /\ firstRejection ps = None.
Proof.
  induction ps as [|p t IH]; intros H; simpl.
  - exists 0, []. auto.
  - destruct (H p (or_introl eq_refl)) as (m & v & ->).
    destruct IH as (n & vs & -> & ->); [intros q Hq; apply H; now right|].
    eauto.
Qed.

Lemma allFulfilled_attained {V} (ps : list (Promise V)) (n : nat)
  (vs : list V) :
  allFulfilled ps = Some (n, vs) ->
  ps = [] /\ n = 0 \/ exists v, In (Settles n (Fulfilled v)) ps.
Proof.
  revert n vs. induction ps as [|p t IH]; intros n vs; simpl.
  - intros H. injection H as <- <-. now left.
  - destruct p as [|k [e|v]]; try discriminate.
    destruct (allFulfilled t) as [[m ws]|]; [|discriminate].
    intros H. injection H as <- <-. right.
    destruct (Nat.max_spec k m) as [[Hlt ->]|[Hge ->]].
    + destruct (IH _ _ eq_refl) as [[-> ->]|[v' Hv']]; [lia|].
      exists v'. now right.
    + exists v. now left.
Qed.

(** [Promise.all] is rejected as soon as one input is: at the instant
    of the earliest rejection, with its reason. *)
Lemma Promise_all_rejects {V} (ps : list (Promise V)) (m : nat) (e : Error) :
  In (Settles m (Rejected e)) ps ->
  exists n e',
    Promise_all ps = Settles n (Rejected e')
    /\ In (Settles n (Rejected e')) ps
    /\ forall k e'', In (Settles k (Rejected e'')) ps -> n <= k.
Proof.
  intros Hin. unfold Promise_all.
  destruct (firstRejection ps) as [[n e']|] eqn:E.
  - exists n, e'. split; [reflexivity|]. now apply firstRejection_Some.
  - exfalso. eapply firstRejection_None; eauto.
Qed.

(** [Promise.all] is fulfilled only when every input is, with their
    values in order, and not before the last of them. *)
Lemma Promise_all_fulfilled {V} (ps : list (Promise V)) (n : nat)
  (vs : list V) :
  Promise_all ps = Settles n (Fulfilled vs) ->
  Forall2 (fun p v => exists m, p = Settles m (Fulfilled v) /\ m <= n) ps vs.
Proof.
  unfold Promise_all. destruct (firstRejection ps) as [[k e]|]; [discriminate|].
  destruct (allFulfilled ps) as [[k ws]|] eqn:E; [|discriminate].
  intros H. injection H as <- <-. now apply allFulfilled_Some.
Qed.

Lemma Promise_all_attained {V} (ps : list (Promise V)) (n : nat)
  (vs : list V) :
  Promise_all ps = Settles n (Fulfilled vs) ->
  ps = [] /\ n = 0 \/ exists v, In (Settles n (Fulfilled v)) ps.
Proof.
  unfold Promise_all. destruct (firstRejection ps) as [[k e]|]; [discriminate|].
  destruct (allFulfilled ps) as [[k ws]|] eqn:E; [|discriminate].
  intros H. injection H as <- <-. eapply allFulfilled_attained, E.
Qed.

Lemma Promise_all_all {V} (ps : list (Promise V)) :
  (forall p, In p ps -> exists m v, p = Settles m (Fulfilled v)) ->
  exists n vs, Promise_all ps = Settles n (Fulfilled vs).
Proof.
  intros H. destruct (allFulfilled_all ps H) as (n & vs & E1 & E2).
  unfold Promise_all. rewrite E2, E1. eauto.
Qed.

Lemma Forall2_map_left {A B C} (P : B -> C -> Prop) (f : A -> B)
  (l : list A) (l' : list C) :
  Forall2 P (map f l) l' -> Forall2 (fun a c => P (f a) c) l l'.
Proof.
  revert l'. induction l as [|a l IH]; intros l' H; inversion H; subst;
    constructor; auto.
Qed.

Lemma Forall2_In_left {A B} (P : A -> B -> Prop) (l : list A) (l' : list B)
  (a : A) :
  Forall2 P l l' -> In a l -> exists b, In b l' /\ P a b.
Proof.
  induction 1 as [|x y l l' Hxy Hl IH]; intros Hin; [contradiction|].
  destruct Hin as [->|Hin].
  - exists y. split; [now left | assumption].
  - destruct (IH Hin) as (b & Hb & Hp). exists b. split; [now right | assumption].
Qed.

(** *** What the two operations resolve to *)

Lemma joinChannel_fulfilled (this : MultiUserClient) (channel : Channel)
  (opts : option JoinChannelOpts) (n : nat) (agg : Aggregate (list (list Obj))) :
  snd (joinChannel this channel opts) = Settles n (Fulfilled agg) ->
  exists rs,
    Promise_all (map (fun c => uc_joinChannel (fst c) channel (snd c))
                     (joinChannelCalls this channel opts))
    = Settles n (Fulfilled rs)
    /\ agg = mkAggregate (map jcr_data rs)
               (Some (fun _ =>
                  (map (fun r => InvokeWait (thunkId (jcr_wait r))) rs,
                   Promise_all (map (fun r => thunkResult (jcr_wait r)) rs)))).
Proof.
  unfold joinChannel. simpl.
  destruct (Promise_all _) as [|k [e|rs]]; try discriminate.
  intros H. injection H as <- <-. exists rs. split; reflexivity.
Qed.

Lemma installChaincode_fulfilled (this : MultiUserClient)
  (req : ChaincodeInstallRequest) (timeout : option N) (n : nat)
  (agg : Aggregate (list Obj)) :
  snd (installChaincode this req timeout) = Settles n (Fulfilled agg) ->
  exists rs,
    Promise_all (map (fun c => uc_installChaincode (fst c) (snd c) timeout)
                     (installChaincodeCalls this req))
    = Settles n (Fulfilled rs)
    /\ agg = mkAggregate (map icr_data rs) None.
Proof.
  unfold installChaincode. simpl.
  destruct (Promise_all _) as [|k [e|rs]]; try discriminate.
  intros H. injection H as <- <-. exists rs. split; reflexivity.
Qed.

(** C6: when the call made for one partition is rejected, [joinChannel]
    and [installChaincode] are rejected: with the reason of the
    earliest rejection among the calls, and so with no data.  The
    [wait] of the object [joinChannel] resolves to is rejected in the
    same way when the [wait] of one response is. *)
Theorem fan_out_fails_fast :
  forall (this : MultiUserClient) (channel : Channel)
         (opts : option JoinChannelOpts) (req : ChaincodeInstallRequest)
         (timeout : option N),
    let jcalls := joinChannelCalls this channel opts in
    let icalls := installChaincodeCalls this req in
    (forall c m e,
        In c jcalls ->
        uc_joinChannel (fst c) channel (snd c) = Settles m (Rejected e) ->
        exists n e' c',
          snd (joinChannel this channel opts) = Settles n (Rejected e')
          /\ In c' jcalls
          /\ uc_joinChannel (fst c') channel (snd c') = Settles n (Rejected e')
          /\ n <= m)
    /\ (forall c m e,
          In c icalls ->
          uc_installChaincode (fst c) (snd c) timeout = Settles m (Rejected e) ->
          exists n e' c',
            snd (installChaincode this req timeout) = Settles n (Rejected e')
            /\ In c' icalls
            /\ uc_installChaincode (fst c') (snd c') timeout
               = Settles n (Rejected e')
            /\ n <= m)
    /\ (forall n agg w c t r m e,
          snd (joinChannel this channel opts) = Settles n (Fulfilled agg) ->
          wait agg = Some w ->
          In c jcalls ->
          uc_joinChannel (fst c) channel (snd c) = Settles t (Fulfilled r) ->
          thunkResult (jcr_wait r) = Settles m (Rejected e) ->
          exists k e' c' t' r',
            snd (w tt) = Settles k (Rejected e')
            /\ In c' jcalls
            /\ uc_joinChannel (fst c') channel (snd c')
               = Settles t' (Fulfilled r')
            /\ thunkResult (jcr_wait r') = Settles k (Rejected e')
            /\ k <= m).
Proof.
  intros this channel opts req timeout jcalls icalls.
  split; [|split].
  - intros c m e Hc Hrej.
    destruct (Promise_all_rejects
                (map (fun c => uc_joinChannel (fst c) channel (snd c)) jcalls)
                m e) as (n & e' & HP & Hin & Hmin).
    { rewrite <- Hrej. now apply (in_map (fun c => uc_joinChannel (fst c) channel (snd c))). }
    apply in_map_iff in Hin as (c' & Hc' & Hin').
    exists n, e', c'. unfold joinChannel. simpl. fold jcalls. rewrite HP.
    repeat split; auto.
    apply (Hmin m e). rewrite <- Hrej.
    now apply (in_map (fun c => uc_joinChannel (fst c) channel (snd c))).
  - intros c m e Hc Hrej.
    destruct (Promise_all_rejects
                (map (fun c => uc_installChaincode (fst c) (snd c) timeout)
                     icalls)
                m e) as (n & e' & HP & Hin & Hmin).
    { rewrite <- Hrej. now apply (in_map (fun c => uc_installChaincode (fst c) (snd c) timeout)). }
    apply in_map_iff in Hin as (c' & Hc' & Hin').
    exists n, e', c'. unfold installChaincode. simpl. fold icalls. rewrite HP.
    repeat split; auto.
    apply (Hmin m e). rewrite <- Hrej.
    now apply (in_map (fun c => uc_installChaincode (fst c) (snd c) timeout)).
  - intros n agg w c t r m e Hful Hw Hc Hr Hrej.
    destruct (joinChannel_fulfilled _ _ _ _ _ Hful) as (rs & HP & ->).
    simpl in Hw. injection Hw as <-.
    apply Promise_all_fulfilled, Forall2_map_left in HP. fold jcalls in HP.
    assert (Hin : In r rs).
    { destruct (Forall2_In_left _ _ _ _ HP Hc) as (r0 & Hr0 & j & Hj & _).
      rewrite Hr in Hj. injection Hj as _ ->. assumption. }
    destruct (Promise_all_rejects
                (map (fun r => thunkResult (jcr_wait r)) rs) m e)
      as (k & e' & HP' & Hin' & Hmin).
    { rewrite <- Hrej. now apply (in_map (fun r => thunkResult (jcr_wait r))). }
    apply in_map_iff in Hin' as (r' & Hr' & Hin').
    assert (Hcall : exists c' t', In c' jcalls
              /\ uc_joinChannel (fst c') channel (snd c')
                 = Settles t' (Fulfilled r')).
    { clear -HP Hin'. induction HP as [|a b l l' (j & Hj & _) Hl IH];
        [contradiction|].
      destruct Hin' as [->|Hin'].
      - exists a, j. split; [now left | assumption].
      - destruct (IH Hin') as (c' & t' & H1 & H2).
        exists c', t'. split; [now right | assumption]. }
    destruct Hcall as (c' & t' & Hc' & Hcr').
    exists k, e', c', t', r'. simpl. rewrite HP'. repeat split; auto.
    apply (Hmin m e). rewrite <- Hrej.
    now apply (in_map (fun r => thunkResult (jcr_wait r))).
Qed.

Lemma fan_out_fails_fast_witness :
  let ok id n :=
    Settles n (Fulfilled
      (mkJoinChannelResponse ["joined"] (mkThunk id (Settles 9 (Rejected "commit failed"))))) in
  let org1 := mkUserClient "Org1MSP" (fun _ _ => ok 11 5) (fun _ _ => Never) in
  let org2 := mkUserClient "Org2MSP" (fun _ _ => Settles 3 (Rejected "join refused"))
                (fun _ _ => Settles 4 (Rejected "install refused")) in
  let org3 := mkUserClient "Org3MSP" (fun _ _ => Settles 7 (Rejected "late"))
                (fun _ _ => Never) in
  let p1 := FcwPeer "peer0.org1" "Org1MSP" ["Org1MSP"] in
  let p2 := FcwPeer "peer0.org2" "Org2MSP" ["Org2MSP"] in
  let p3 := FcwPeer "peer0.org3" "Org3MSP" ["Org3MSP"] in
  let channel := mkChannel "mychannel" [p1; p2; p3] in
  let req := mkChaincodeInstallRequest [p1; p2; p3] "cc" "path" "v1" None None in
  let this := constructor [org1; org2; org3] None in
  let c3 := (org3, mkJoinChannelOpts (Some [p3]) None None) in
  let c1 := (org1, mkJoinChannelOpts (Some [p1]) None None) in
  In c3 (joinChannelCalls this channel None)
  /\ snd (joinChannel this channel None) = Settles 3 (Rejected "join refused")
  /\ snd (installChaincode this req None) = Settles 4 (Rejected "install refused")
  /\ (exists n e' c',
        snd (joinChannel this channel None) = Settles n (Rejected e')
        /\ In c' (joinChannelCalls this channel None)
        /\ uc_joinChannel (fst c') channel (snd c') = Settles n (Rejected e')
        /\ n <= 7)
  /\ (exists k e' c' t' r' w,
        wait (mkAggregate [["joined"]]
                (Some (fun _ : unit => ([InvokeWait 11], Promise_all [Settles 9 (Rejected "commit failed")]))))
        = Some w
        /\ snd (w tt) = Settles k (Rejected e')
        /\ In c' (joinChannelCalls (constructor [org1] None) channel None)
        /\ uc_joinChannel (fst c') channel (snd c') = Settles t' (Fulfilled r')
        /\ thunkResult (jcr_wait r') = Settles k (Rejected e')
        /\ k <= 9).
Proof.
  intros ok org1 org2 org3 p1 p2 p3 channel req this c3 c1.
  assert (Hc3 : In c3 (joinChannelCalls this channel None))
    by (right; right; left; reflexivity).
  split; [exact Hc3|]. split; [reflexivity|]. split; [reflexivity|].
  destruct (fan_out_fails_fast this channel None req None) as (Hj & _ & _).
  split; [exact (Hj c3 7 "late" Hc3 eq_refl)|].
  destruct (fan_out_fails_fast (constructor [org1] None) channel None req None)
    as (_ & _ & Hw).
  assert (Hc1 : In c1 (joinChannelCalls (constructor [org1] None) channel None))
    by (left; reflexivity).
  destruct (Hw 5 _ _ c1 5 _ 9 "commit failed" eq_refl eq_refl Hc1 eq_refl eq_refl)
    as (k & e' & c' & t' & r' & H1 & H2 & H3 & H4 & H5).
  exists k, e', c', t', r'. eexists. split; [reflexivity|].
  repeat split; assumption.
Defined.

(** *** The aggregate and its [wait] *)

(** C2, as the specification states it, fails on [installChaincode]:
    two clients install on their peers, both calls fulfil, and the
    object the operation resolves to has no [wait]. *)
Lemma installChaincode_exposes_no_wait :
  ~ (forall (this : MultiUserClient) (req : ChaincodeInstallRequest)
            (timeout : option N) (n : nat) (agg : Aggregate (list Obj)),
       snd (installChaincode this req timeout) = Settles n (Fulfilled agg) ->
       exists w, wait agg = Some w).
Proof.
  intros H.
  set (org1 := mkUserClient "Org1MSP" (fun _ _ => Never)
                 (fun _ _ => Settles 2 (Fulfilled (mkInstallChaincodeResponse "ok1")))).
  set (org2 := mkUserClient "Org2MSP" (fun _ _ => Never)
                 (fun _ _ => Settles 4 (Fulfilled (mkInstallChaincodeResponse "ok2")))).
  set (req := mkChaincodeInstallRequest
                [FcwPeer "peer0.org1" "Org1MSP" ["Org1MSP"];
                 FcwPeer "peer0.org2" "Org2MSP" ["Org2MSP"]]
                "cc" "path" "v1" None None).
  destruct (H (constructor [org1; org2] None) req None 4
              (mkAggregate ["ok1"; "ok2"] None) eq_refl) as [w Hw].
  discriminate.
Qed.

Lemma Forall2_In_right {A B} (P : A -> B -> Prop) (l : list A) (l' : list B)
  (b : B) :
  Forall2 P l l' -> In b l' -> exists a, In a l /\ P a b.
Proof.
  induction 1 as [|x y l l' Hxy Hl IH]; intros Hin; [contradiction|].
  destruct Hin as [->|Hin].
  - exists x. split; [now left | assumption].
  - destruct (IH Hin) as (a & Ha & Hp). exists a. split; [now right | assumption].
Qed.

(** [joinChannel] fulfils when each call it made does. *)
Lemma joinChannel_fulfils (this : MultiUserClient) (channel : Channel)
  (opts : option JoinChannelOpts) :
  (forall c, In c (joinChannelCalls this channel opts) ->
     exists m r, uc_joinChannel (fst c) channel (snd c) = Settles m (Fulfilled r)) ->
  exists n agg, snd (joinChannel this channel opts) = Settles n (Fulfilled agg).
Proof.
  intros Hall.
  destruct (Promise_all_all
              (map (fun c => uc_joinChannel (fst c) channel (snd c))
                   (joinChannelCalls this channel opts))) as (n & rs & HP).
  { intros p Hp. apply in_map_iff in Hp as (c & <- & Hc). auto. }
  unfold joinChannel. simpl. rewrite HP. eauto.
Qed.

(** [installChaincode] fulfils when each call it made does. *)
Lemma installChaincode_fulfils (this : MultiUserClient)
  (req : ChaincodeInstallRequest) (timeout : option N) :
  (forall c, In c (installChaincodeCalls this req) ->
     exists m r,
       uc_installChaincode (fst c) (snd c) timeout = Settles m (Fulfilled r)) ->
  exists n agg,
    snd (installChaincode this req timeout) = Settles n (Fulfilled agg).
Proof.
  intros Hall.
  destruct (Promise_all_all
              (map (fun c => uc_installChaincode (fst c) (snd c) timeout)
                   (installChaincodeCalls this req))) as (n & rs & HP).
  { intros p Hp. apply in_map_iff in Hp as (c & <- & Hc). auto. }
  unfold installChaincode. simpl. rewrite HP. eauto.
Qed.

(** C2, amended: [joinChannel] invokes no [wait] while it dispatches.
    It fulfils whenever each call it made fulfils, at the instant the
    last of them does, to an object with the data of all responses, in
    call order, and a [wait]; that [wait], when invoked, invokes the
    [wait] of each response once, in order, and returns their
    [Promise.all]: fulfilled once all of them are, with all their
    values, whenever each of them fulfils, and at the instant the last
    of them does.  [installChaincode] invokes no [wait] either; it
    fulfils whenever each call it made fulfils, at the instant the last
    of them does, to an object with the data of all responses, in call
    order, and no [wait]. *)
Theorem joinChannel_aggregate_wait :
  forall (this : MultiUserClient) (channel : Channel)
         (opts : option JoinChannelOpts) (req : ChaincodeInstallRequest)
         (timeout : option N),
    let jcalls := joinChannelCalls this channel opts in
    let icalls := installChaincodeCalls this req in
    forallb (fun e => negb (isInvokeWait e))
            (fst (joinChannel this channel opts)) = true
    /\ forallb (fun e => negb (isInvokeWait e))
               (fst (installChaincode this req timeout)) = true
    /\ (forall n agg,
          snd (joinChannel this channel opts) = Settles n (Fulfilled agg) ->
          exists rs w,
            Forall2 (fun c r => exists m,
                       uc_joinChannel (fst c) channel (snd c)
                       = Settles m (Fulfilled r) /\ m <= n)
                    jcalls rs
            /\ data agg = map jcr_data rs
            /\ wait agg = Some w
            /\ fst (w tt) = map (fun r => InvokeWait (thunkId (jcr_wait r))) rs
            /\ snd (w tt) = Promise_all (map (fun r => thunkResult (jcr_wait r)) rs)
            /\ (forall k vs,
                  snd (w tt) = Settles k (Fulfilled vs) ->
                  Forall2 (fun r v => exists m,
                             thunkResult (jcr_wait r) = Settles m (Fulfilled v)
                             /\ m <= k) rs vs
                  /\ (rs = [] /\ k = 0
                      \/ exists r v, In r rs
                           /\ thunkResult (jcr_wait r) = Settles k (Fulfilled v)))
            /\ ((forall r, In r rs ->
                   exists m v, thunkResult (jcr_wait r) = Settles m (Fulfilled v)) ->
                exists k vs, snd (w tt) = Settles k (Fulfilled vs))
            /\ (jcalls = [] /\ n = 0
                \/ exists c r, In c jcalls
                     /\ uc_joinChannel (fst c) channel (snd c)
                        = Settles n (Fulfilled r)))
    /\ (forall n agg,
          snd (installChaincode this req timeout) = Settles n (Fulfilled agg) ->
          wait agg = None
          /\ exists rs,
               Forall2 (fun c r => exists m,
                          uc_installChaincode (fst c) (snd c) timeout
                          = Settles m (Fulfilled r) /\ m <= n)
                       icalls rs
               /\ data agg = map icr_data rs
               /\ (icalls = [] /\ n = 0
                   \/ exists c r, In c icalls
                        /\ uc_installChaincode (fst c) (snd c) timeout
                           = Settles n (Fulfilled r)))
    /\ ((forall c, In c jcalls ->
           exists m r,
             uc_joinChannel (fst c) channel (snd c) = Settles m (Fulfilled r)) ->
        exists n agg,
          snd (joinChannel this channel opts) = Settles n (Fulfilled agg))
    /\ ((forall c, In c icalls ->
           exists m r,
             uc_installChaincode (fst c) (snd c) timeout
             = Settles m (Fulfilled r)) ->
        exists n agg,
          snd (installChaincode this req timeout) = Settles n (Fulfilled agg))
    /\ ((forall c, In c jcalls ->
           exists m r k v,
             uc_joinChannel (fst c) channel (snd c) = Settles m (Fulfilled r)
             /\ thunkResult (jcr_wait r) = Settles k (Fulfilled v)) ->
        exists n agg w k vs,
          snd (joinChannel this channel opts) = Settles n (Fulfilled agg)
          /\ wait agg = Some w
          /\ snd (w tt) = Settles k (Fulfilled vs)
          /\ List.length vs = List.length jcalls).
Proof.
  intros this channel opts req timeout jcalls icalls.
  split; [|split; [|split; [|split; [|split; [|split]]]]].
  - unfold joinChannel. simpl. apply forallb_forall.
    intros e He. apply in_map_iff in He as (c & <- & _). reflexivity.
  - unfold installChaincode. simpl. apply forallb_forall.
    intros e He. apply in_map_iff in He as (c & <- & _). reflexivity.
  - intros n agg Hful.
    destruct (joinChannel_fulfilled _ _ _ _ _ Hful) as (rs & HP & ->).
    fold jcalls in HP.
    exists rs. eexists. split.
    { apply (Forall2_map_left
               (fun p r => exists m, p = Settles m (Fulfilled r) /\ m <= n)
               (fun c => uc_joinChannel (fst c) channel (snd c))).
      now apply Promise_all_fulfilled. }
    split; [reflexivity|]. split; [reflexivity|]. simpl.
    split; [reflexivity|]. split; [reflexivity|]. split; [|split].
    + intros k vs Hk. split.
      * apply (Forall2_map_left
                 (fun p v => exists m, p = Settles m (Fulfilled v) /\ m <= k)
                 (fun r => thunkResult (jcr_wait r))).
        now apply Promise_all_fulfilled.
      * destruct (Promise_all_attained _ _ _ Hk) as [[E ->]|[v Hv]].
        -- left. split; [|reflexivity]. now destruct rs.
        -- right. apply in_map_iff in Hv as (r & Hr & Hin). eauto.
    + intros Hall. apply Promise_all_all.
      intros p Hp. apply in_map_iff in Hp as (r & <- & Hr). auto.
    + destruct (Promise_all_attained _ _ _ HP) as [[E ->]|[r Hr]].
      * left. split; [|reflexivity]. now destruct jcalls.
      * right. apply in_map_iff in Hr as (c & Hc & Hin). eauto.
  - intros n agg Hful.
    destruct (installChaincode_fulfilled _ _ _ _ _ Hful) as (rs & HP & ->).
    fold icalls in HP.
    split; [reflexivity|]. exists rs. split; [|split; [reflexivity|]].
    + apply (Forall2_map_left
               (fun p r => exists m, p = Settles m (Fulfilled r) /\ m <= n)
               (fun c => uc_installChaincode (fst c) (snd c) timeout)).
      now apply Promise_all_fulfilled.
    + destruct (Promise_all_attained _ _ _ HP) as [[E ->]|[r Hr]].
      * left. split; [|reflexivity]. now destruct icalls.
      * right. apply in_map_iff in Hr as (c & Hc & Hin). eauto.
  - apply joinChannel_fulfils.
  - apply installChaincode_fulfils.
  - intros Hall.
    destruct (joinChannel_fulfils this channel opts) as (n & agg & Hful).
    { intros c Hc. destruct (Hall c Hc) as (m & r & _ & _ & H & _). eauto. }
    destruct (joinChannel_fulfilled _ _ _ _ _ Hful) as (rs & HP & Hagg).
    fold jcalls in HP.
    assert (HF : Forall2 (fun c r => exists m,
                            uc_joinChannel (fst c) channel (snd c)
                            = Settles m (Fulfilled r) /\ m <= n) jcalls rs).
    { apply (Forall2_map_left
               (fun p r => exists m, p = Settles m (Fulfilled r) /\ m <= n)
               (fun c => uc_joinChannel (fst c) channel (snd c))).
      now apply Promise_all_fulfilled. }
    destruct (Promise_all_all (map (fun r => thunkResult (jcr_wait r)) rs))
      as (k & vs & Hk).
    { intros p Hp. apply in_map_iff in Hp as (r & <- & Hr).
      destruct (Forall2_In_right _ _ _ _ HF Hr) as (c & Hc & m & Hm & _).
      destruct (Hall c Hc) as (m' & r' & k' & v' & Hm' & Hk').
      rewrite Hm in Hm'. injection Hm' as _ <-. eauto. }
    exists n, agg. eexists. exists k, vs. subst agg. simpl.
    split; [exact Hful|]. split; [reflexivity|]. split; [exact Hk|].
    apply Promise_all_fulfilled, Forall2_length in Hk.
    apply Forall2_length in HF. rewrite length_map in Hk. congruence.
Qed.

Lemma joinChannel_aggregate_wait_witness :
  let resp d id n v :=
    Settles n (Fulfilled (mkJoinChannelResponse [d] (mkThunk id (Settles (n + 4) (Fulfilled v))))) in
  let org1 := mkUserClient "Org1MSP" (fun _ _ => resp "j1" 11 5 "c1")
                (fun _ _ => Settles 2 (Fulfilled (mkInstallChaincodeResponse "i1"))) in
  let org2 := mkUserClient "Org2MSP" (fun _ _ => resp "j2" 22 3 "c2")
                (fun _ _ => Settles 4 (Fulfilled (mkInstallChaincodeResponse "i2"))) in
  let p1 := FcwPeer "peer0.org1" "Org1MSP" ["Org1MSP"] in
  let p2 := FcwPeer "peer0.org2" "Org2MSP" ["Org2MSP"] in
  let channel := mkChannel "mychannel" [p1; p2] in
  let req := mkChaincodeInstallRequest [p1; p2] "cc" "path" "v1" None None in
  let this := constructor [org1; org2] None in
  (forall c, In c (joinChannelCalls this channel None) ->
     exists m r k v,
       uc_joinChannel (fst c) channel (snd c) = Settles m (Fulfilled r)
       /\ thunkResult (jcr_wait r) = Settles k (Fulfilled v))
  /\ (forall c, In c (installChaincodeCalls this req) ->
        exists m r,
          uc_installChaincode (fst c) (snd c) None = Settles m (Fulfilled r))
  /\ (exists n agg w k vs,
        snd (joinChannel this channel None) = Settles n (Fulfilled agg)
        /\ wait agg = Some w
        /\ snd (w tt) = Settles k (Fulfilled vs)
        /\ List.length vs = List.length (joinChannelCalls this channel None))
  /\ (exists n iagg,
        snd (installChaincode this req None) = Settles n (Fulfilled iagg))
  /\ exists agg iagg,
       snd (joinChannel this channel None) = Settles 5 (Fulfilled agg)
       /\ snd (installChaincode this req None) = Settles 4 (Fulfilled iagg)
       /\ data agg = [["j1"]; ["j2"]]
       /\ data iagg = ["i1"; "i2"]
       /\ wait iagg = None
       /\ (exists rs,
             Forall2 (fun c r => exists m,
                        uc_installChaincode (fst c) (snd c) None
                        = Settles m (Fulfilled r) /\ m <= 4)
                     (installChaincodeCalls this req) rs
             /\ data iagg = map icr_data rs)
       /\ exists w,
            wait agg = Some w
            /\ w tt = ([InvokeWait 11; InvokeWait 22],
                       Settles 9 (Fulfilled ["c1"; "c2"])).
Proof.
  intros resp org1 org2 p1 p2 channel req this.
  destruct (joinChannel_aggregate_wait this channel None req None)
    as (_ & _ & Hj & Hi & _ & Hit & Hjw).
  assert (Hjc : forall c, In c (joinChannelCalls this channel None) ->
            exists m r k v,
              uc_joinChannel (fst c) channel (snd c) = Settles m (Fulfilled r)
              /\ thunkResult (jcr_wait r) = Settles k (Fulfilled v)).
  { intros c [<-|[<-|[]]]; do 4 eexists; split; reflexivity. }
  assert (Hic : forall c, In c (installChaincodeCalls this req) ->
            exists m r,
              uc_installChaincode (fst c) (snd c) None = Settles m (Fulfilled r)).
  { intros c [<-|[<-|[]]]; do 2 eexists; reflexivity. }
  split; [exact Hjc|]. split; [exact Hic|].
  split; [exact (Hjw Hjc)|]. split; [exact (Hit Hic)|].
  do 2 eexists.
  split; [reflexivity|]. split; [reflexivity|].
  split; [reflexivity|]. split; [reflexivity|].
  destruct (Hi 4 _ eq_refl) as (Hnone & rs & HF & Hd & _).
  split; [exact Hnone|].
  split; [exists rs; split; assumption|].
  destruct (Hj 5 _ eq_refl) as (rs' & w & _ & _ & Hw & _).
  eexists. split; reflexivity.
Defined.

End MultiUserClientFacts.

(** ** Further properties of the rendezvous server *)

Module ChannelSetupServerMore.
Import Js JsFacts Fabric ChannelSetupServer ChannelSetupServerFacts.

(** *** Invariants of the reachable worlds *)

Lemma run_invariant (P : World -> Prop) :
  (forall w ev, P w -> P (fst (step w ev))) ->
  forall evs w, P w -> P (fst (run w evs)).
Proof.
  intros Hstep evs. induction evs as [|ev evs IH]; intros w H; [assumption|].
  rewrite run_cons. apply IH, Hstep, H.
Qed.

Lemma reachable_invariant (P : World -> Prop) :
  (forall o t0 w, constructor o t0 = inr w -> P w) ->
  (forall w ev, P w -> P (fst (step w ev))) ->
  forall w, reachable w -> P w.
Proof.
  intros H0 Hstep w (o & t0 & w0 & evs & Hc & ->).
  apply run_invariant; eauto.
Qed.

Lemma reachable_fresh (ids : list string) (evs : list Event) :
  reachable (fst (run (fresh ids) evs)).
Proof.
  exists (mkOpts None None (Some ids) None), 0%N, (fresh ids), evs.
  split; reflexivity.
Qed.

Lemma step_externalMspIds (w : World) (ev : Event) :
  externalMspIds (server (fst (step w ev))) = externalMspIds (server w).
Proof.
  destruct ev; simpl; auto.
  - unfold onData. now destruct (roundComplete _ _).
  - unfold elapse. now destruct (fireDue _ _ _).
Qed.

(** What a step does to the reported list: only a message changes it. *)
Lemma step_mspResponses (w : World) (ev : Event) :
  mspResponses (server (fst (step w ev)))
  = match ev with
    | Data _ message =>
        if completes w ev then []
        else collectResponses (server w) message
    | _ => mspResponses (server w)
    end.
Proof.
  destruct ev; simpl; auto.
  - unfold onData. now destruct (roundComplete _ _).
  - unfold elapse. now destruct (fireDue _ _ _).
Qed.

Lemma collectResponses_length_le (s : Server) (message : string) :
  List.length (collectResponses s message)
  <= List.length (externalMspIds s).
Proof.
  apply NoDup_incl_length; [apply collectResponses_NoDup|].
  intros x Hx. now apply collectResponses_In in Hx.
Qed.

Lemma reachable_mspResponses (w : World) :
  reachable w ->
  NoDup (mspResponses (server w))
  /\ incl (mspResponses (server w)) (externalMspIds (server w))
  /\ (mspResponses (server w) = []
      \/ List.length (mspResponses (server w))
         < List.length (externalMspIds (server w))).
Proof.
  revert w. apply reachable_invariant.
  - intros o t0 w Hc. unfold constructor in Hc.
    destruct (constructor_externalMspIds o); [discriminate|].
    destruct (N.ltb _ _); [|discriminate].
    injection Hc as <-. simpl. repeat split; [constructor | | now left].
    intros x [].
  - intros w ev (Hnd & Hincl & Hlen).
    rewrite step_mspResponses, step_externalMspIds.
    destruct ev as [s|s m|s|t| |dt]; try (repeat split; assumption).
    destruct (completes w (Data s m)) eqn:Hc.
    + repeat split; [constructor | intros x [] | now left].
    + split; [apply collectResponses_NoDup|]. split.
      * intros x Hx. now apply collectResponses_In in Hx.
      * right. simpl in Hc. unfold roundComplete in Hc.
        apply Nat.eqb_neq in Hc.
        pose proof (collectResponses_length_le (server w) m). lia.
Qed.

(** X1: between events the reported list has no duplicates, holds
    expected identifiers only, and is never full: it is empty or
    shorter than the expected list. *)
Theorem reported_list_invariant :
  forall w : World,
    reachable w ->
    NoDup (mspResponses (server w))
    /\ incl (mspResponses (server w)) (externalMspIds (server w))
    /\ (mspResponses (server w) = []
        \/ List.length (mspResponses (server w))
           < List.length (externalMspIds (server w))).
Proof. exact reachable_mspResponses. Qed.

Lemma reported_list_invariant_witness :
  let w := fst (run (fresh ["A"; "B"; "C"])
                  [Connection 1; Data 1 "B-Z-B"; RequestResponses None;
                   Data 1 "A-B"]) in
  reachable w
  /\ mspResponses (server w) = ["B"; "A"]
  /\ NoDup (mspResponses (server w))
  /\ incl (mspResponses (server w)) (externalMspIds (server w))
  /\ (mspResponses (server w) = []
      \/ List.length (mspResponses (server w))
         < List.length (externalMspIds (server w))).
Proof.
  intro w.
  assert (Hr : reachable w) by apply reachable_fresh.
  split; [exact Hr|]. split; [reflexivity|].
  exact (reported_list_invariant w Hr).
Defined.

(** *** Degenerate expected lists *)

(** X2: with nothing expected, every message completes the round,
    whatever it says. *)
Theorem empty_expected_list_completes_on_any_message :
  forall (w : World) (socket : Socket) (message : string),
    externalMspIds (server w) = [] ->
    completes w (Data socket message) = true
    /\ snd (onData w socket message)
       = map Invoke (waitResponsesCbs (server w)).
Proof.
  intros w socket message He.
  assert (Hc : completes w (Data socket message) = true).
  { simpl. unfold roundComplete. apply Nat.eqb_eq.
    pose proof (collectResponses_length_le (server w) message) as H.
    rewrite He in *. simpl in *. lia. }
  split; [exact Hc|]. now rewrite (onData_complete _ _ _ Hc).
Qed.

Lemma empty_expected_list_completes_on_any_message_witness :
  let w := fst (run (fresh []) [Connection 1; RequestResponses None]) in
  externalMspIds (server w) = []
  /\ completes w (Data 1 "hello") = true
  /\ snd (onData w 1 "hello") = [Invoke (mkCallback 0 0)].
Proof.
  intro w.
  destruct (empty_expected_list_completes_on_any_message w 1 "hello" eq_refl)
    as [H1 H2].
  split; [reflexivity|]. split; [exact H1 | exact H2].
Defined.

Lemma waiting_elapse_rejects (h : nat) (d : N) (w : World) (dt : N) :
  waiting h d w -> (d <= now w + dt)%N ->
  promiseState (fst (step w (Elapse dt))) h
  = Some (RejectedWith TIMEOUT_ERROR).
Proof.
  intros Hw Hge.
  assert (Hw' : waiting h d (fst (step w (Elapse dt))))
    by now apply waiting_step.
  destruct Hw' as [_ [[Ht _]|(_ & _ & H)]]; [|exact H].
  exfalso. revert Ht. cbn [step]. unfold elapse.
  pose proof (fireDue_timers (now w + dt)%N (timers w) (promises w) h) as HT.
  destruct (fireDue _ _ _) as [ts ps]. simpl in *. rewrite HT.
  destruct Hw as [_ [[Hth _]|(Hd & Ha & _)]].
  - rewrite Hth. simpl. unfold due. simpl.
    destruct (N.leb_spec d (now w + dt)); [discriminate | lia].
  - unfold timerArmed in Ha.
    destruct (nth_error (timers w) h) as [tm|]; [|discriminate].
    simpl. unfold due. rewrite Ha. simpl.
    intros E. injection E as E. rewrite E in Ha. discriminate.
Qed.

(** X3: when the expected list given to the constructor repeats an
    identifier, no message ever completes the round, and every call of
    [requestResponses] ends in the timeout error: once the delay
    [setTimeout] made of the timeout has passed, and so, for a timeout
    of 1 or more, once the timeout has passed. *)
Theorem repeated_expected_identifier_blocks_completion :
  forall (w : World) (timeout : N) (evs later : list Event) (dt : N),
    reachable w ->
    ~ NoDup (externalMspIds (server w)) ->
    let w1 := fst (fst (requestResponses w (Some timeout))) in
    let p := snd (fst (requestResponses w (Some timeout))) in
    noCompletion w1 evs = true
    /\ ((setTimeoutDelay timeout <= elapsed evs + dt)%N ->
        promiseState (fst (run w1 (evs ++ Elapse dt :: later))) p
        = Some (RejectedWith TIMEOUT_ERROR))
    /\ ((1 <= timeout)%N ->
        (timeout <= elapsed evs + dt)%N ->
        promiseState (fst (run w1 (evs ++ Elapse dt :: later))) p
        = Some (RejectedWith TIMEOUT_ERROR)).
Proof.
  intros w timeout evs later dt Hr Hdup w1 p.
  assert (Hnever : forall w' ev,
            externalMspIds (server w') = externalMspIds (server w) ->
            completes w' ev = false).
  { intros w' ev He. destruct ev as [s|s m|s|t| |d]; try reflexivity.
    simpl. unfold roundComplete. apply Nat.eqb_neq. intros Hlen.
    apply Hdup. rewrite <- He.
    apply (NoDup_incl_NoDup (collectResponses_NoDup (server w') m)); [lia|].
    intros x Hx. now apply collectResponses_In in Hx. }
  assert (Hnc : forall evs' w',
            externalMspIds (server w') = externalMspIds (server w) ->
            noCompletion w' evs' = true).
  { induction evs' as [|ev evs' IH]; intros w' He; [reflexivity|].
    simpl. rewrite (Hnever w' ev He). simpl. apply IH.
    now rewrite step_externalMspIds. }
  assert (H1 : noCompletion w1 evs = true) by (apply Hnc; reflexivity).
  split; [exact H1|].
  pose proof (reachable_wellFormed w Hr) as Hwf.
  pose proof (requestResponses_waiting w (Some timeout) Hwf) as Hw1.
  pose proof (waiting_run _ _ evs _ Hw1 H1) as Hw2.
  assert (Hp : p = List.length (timers w))
    by (destruct Hwf as (Hlen & _); exact Hlen).
  assert (Hdue : (setTimeoutDelay timeout <= elapsed evs + dt)%N ->
            promiseState (fst (run w1 (evs ++ Elapse dt :: later))) p
            = Some (RejectedWith TIMEOUT_ERROR)).
  { intros Hge. rewrite run_app, run_cons.
    apply run_settled; [discriminate|].
    rewrite Hp. apply (waiting_elapse_rejects _ _ _ _ Hw2).
    unfold w1. rewrite run_now. simpl. lia. }
  split; [exact Hdue|].
  intros Hpos Hge. apply Hdue.
  pose proof (proj1 (proj2 (setTimeoutDelay_spec timeout)) Hpos). lia.
Qed.

Lemma repeated_expected_identifier_blocks_completion_witness :
  let w := fst (run (fresh ["A"; "A"]) [Connection 1]) in
  let evs := [Data 1 "A"; Data 1 "A-A"; Elapse 40%N] in
  reachable w
  /\ ~ NoDup (externalMspIds (server w))
  /\ (1 <= 100)%N
  /\ (100 <= elapsed evs + 60)%N
  /\ promiseState
       (fst (run (fst (fst (requestResponses w (Some 100%N))))
                 (evs ++ [Elapse 60%N; Data 1 "A"]))) 0
     = Some (RejectedWith TIMEOUT_ERROR).
Proof.
  intros w evs.
  assert (Hr : reachable w) by apply reachable_fresh.
  assert (Hd : ~ NoDup (externalMspIds (server w))).
  { simpl. intros H. inversion H as [|x l Hx _]. apply Hx. now left. }
  assert (Hpos : (1 <= 100)%N) by lia.
  assert (Hge : (100 <= elapsed evs + 60)%N) by (simpl; lia).
  split; [exact Hr|]. split; [exact Hd|]. split; [exact Hpos|].
  split; [exact Hge|].
  exact (proj2 (proj2 (repeated_expected_identifier_blocks_completion
                         w 100%N evs [Data 1 "A"] 60%N Hr Hd)) Hpos Hge).
Defined.

(** *** How reports compose *)

Lemma completes_ext (w w' : World) (s s' : Socket) (m m' : string) :
  externalMspIds (server w') = externalMspIds (server w) ->
  (forall x, In x (collectResponses (server w') m')
             <-> In x (collectResponses (server w) m)) ->
  completes w' (Data s' m') = completes w (Data s m).
Proof.
  intros He Hiff. simpl. unfold roundComplete. rewrite He. f_equal.
  apply Permutation_length, NoDup_Permutation;
    [apply collectResponses_NoDup | apply collectResponses_NoDup | exact Hiff].
Qed.

(** X4: two reports handled one after the other, the first not
    completing the round, count as the one report made of both joined
    by the separator; so the order of two reports does not matter for
    completion. *)
Theorem consecutive_reports_compose :
  forall (w : World) (s1 s2 s3 : Socket) (m1 m2 : string),
    completes w (Data s1 m1) = false ->
    let w1 := fst (onData w s1 m1) in
    completes w1 (Data s2 m2) = completes w (Data s3 (m1 ++ "-" ++ m2))
    /\ (forall x, In x (collectResponses (server w1) m2)
                  <-> In x (collectResponses (server w) (m1 ++ "-" ++ m2)))
    /\ (completes w (Data s2 m2) = false ->
        completes (fst (onData w s2 m2)) (Data s1 m1)
        = completes w1 (Data s2 m2)).
Proof.
  intros w s1 s2 s3 m1 m2 Hnc w1.
  assert (Hjoin : forall a b x,
            In x (collectResponses (server w) (a ++ "-" ++ b))
            <-> In x (externalMspIds (server w))
                /\ (In x (mspResponses (server w))
                    \/ In x (split SPLIT_CHAR a) \/ In x (split SPLIT_CHAR b))).
  { intros a b x. rewrite collectResponses_In.
    change (a ++ "-" ++ b)%string with (a ++ String SPLIT_CHAR b)%string.
    rewrite split_join, in_app_iff. tauto. }
  assert (Hseq : forall sa a b x,
            completes w (Data sa a) = false ->
            In x (collectResponses (server (fst (onData w sa a))) b)
            <-> In x (collectResponses (server w) (a ++ "-" ++ b))).
  { intros sa a b x Ha. rewrite (onData_incomplete _ _ _ Ha), Hjoin.
    rewrite collectResponses_In. simpl. rewrite collectResponses_In. tauto. }
  assert (He : forall sa a,
            externalMspIds (server (fst (onData w sa a)))
            = externalMspIds (server w)).
  { intros sa a. exact (step_externalMspIds w (Data sa a)). }
  split; [|split].
  - apply completes_ext; [apply He | intros x; now apply Hseq].
  - intros x. now apply Hseq.
  - intros Hnc2. apply completes_ext.
    + unfold w1. now rewrite !He.
    + intros x. unfold w1.
      rewrite (Hseq s2 m2 m1 x Hnc2), (Hseq s1 m1 m2 x Hnc), !Hjoin.
      tauto.
Qed.

Lemma consecutive_reports_compose_witness :
  let w := fst (run (fresh ["A"; "B"; "C"]) [Connection 1; Connection 2]) in
  completes w (Data 1 "A-C") = false
  /\ completes w (Data 2 "B") = false
  /\ completes w (Data 3 "A-C-B") = true
  /\ completes (fst (onData w 1 "A-C")) (Data 2 "B") = true
  /\ completes (fst (onData w 2 "B")) (Data 1 "A-C") = true.
Proof.
  intro w.
  destruct (consecutive_reports_compose w 1 2 3 "A-C" "B" eq_refl)
    as (H1 & _ & H3).
  split; [reflexivity|]. split; [reflexivity|]. split; [reflexivity|].
  split; [rewrite H1; reflexivity|].
  rewrite (H3 eq_refl), H1. reflexivity.
Defined.

(** X5: when something is expected, a report that names no expected
    identifier not yet reported leaves the server exactly as it was and
    releases nobody. *)
Theorem redundant_report_changes_nothing :
  forall (w : World) (socket : Socket) (message : string),
    reachable w ->
    externalMspIds (server w) <> [] ->
    forallb (fun x => negb (includes x (externalMspIds (server w)))
                      || includes x (mspResponses (server w)))
            (split "-" message) = true ->
    onData w socket message = (w, []).
Proof.
  intros w socket message Hr Hne Hred.
  destruct (reachable_mspResponses w Hr) as (Hnd & Hincl & Hlen).
  rewrite forallb_forall in Hred.
  assert (Hcol : collectResponses (server w) message = mspResponses (server w)).
  { unfold collectResponses, uniq. rewrite collect_app.
    rewrite (collect_all _ (mspResponses (server w)) []) by (simpl; auto).
    simpl.
    destruct (collect_prefix (fun _ => true) (split SPLIT_CHAR message)
                (mspResponses (server w))) as (extra & -> & Hsub).
    unfold fp_intersection, intersection. rewrite collect_app.
    rewrite (collect_all _ (mspResponses (server w)) []); simpl; auto.
    - apply collect_absorb. intros x Hx Hk. apply includes_In in Hk.
      specialize (Hred x (Hsub x Hx)). apply orb_prop in Hred as [H|H].
      + apply Bool.negb_true_iff, includes_false in H. contradiction.
      + now apply includes_In.
    - intros x Hx. apply includes_In. auto. }
  assert (Hc : completes w (Data socket message) = false).
  { simpl. rewrite Hcol. unfold roundComplete. apply Nat.eqb_neq.
    destruct Hlen as [E|Hlt]; [|lia]. rewrite E. simpl.
    destruct (externalMspIds (server w)); [congruence | discriminate]. }
  rewrite (onData_incomplete _ _ _ Hc), Hcol.
  destruct w as [[c e r cbs q] n ts ps l]. reflexivity.
Qed.

Lemma redundant_report_changes_nothing_witness :
  let w := fst (run (fresh ["A"; "B"])
                  [Connection 1; RequestResponses None; Data 1 "A"]) in
  reachable w
  /\ externalMspIds (server w) <> []
  /\ onData w 1 "" = (w, [])
  /\ onData w 1 "Z-A-request" = (w, []).
Proof.
  intro w.
  assert (Hr : reachable w) by apply reachable_fresh.
  assert (Hne : externalMspIds (server w) <> []) by discriminate.
  split; [exact Hr|]. split; [exact Hne|]. split.
  - exact (redundant_report_changes_nothing w 1 "" Hr Hne eq_refl).
  - exact (redundant_report_changes_nothing w 1 "Z-A-request" Hr Hne eq_refl).
Defined.

(** *** When a waiter is settled *)

(** X6: a pending promise of [requestResponses] becomes resolved only
    by a message that completes the round, through a registered
    callback that holds its [resolve]; when the expected identifiers
    are distinct, each of them has then been reported. *)
Theorem release_requires_complete_round :
  forall (w : World) (ev : Event) (p : nat),
    promiseState w p = Some Pending ->
    promiseState (fst (step w ev)) p = Some Resolved ->
    exists socket message,
      ev = Data socket message
      /\ completes w ev = true
      /\ (exists cb, In cb (waitResponsesCbs (server w)) /\ cb_resolve cb = p)
      /\ (NoDup (externalMspIds (server w)) ->
          forall x, In x (externalMspIds (server w)) ->
                    In x (mspResponses (server w))
                    \/ In x (split "-" message)).
Proof.
  unfold promiseState. intros w ev p Hp Hres.
  destruct ev as [s|s m|s|t| |dt]; simpl in Hres; try congruence.
  - destruct (completes w (Data s m)) eqn:Hc.
    + exists s, m. split; [reflexivity|]. split; [reflexivity|]. split.
      * rewrite (onData_complete _ _ _ Hc) in Hres. simpl in Hres.
        rewrite runCallbacks_promises, Hp in Hres. simpl in Hres.
        destruct (existsb _ _) eqn:E; [|discriminate].
        apply existsb_exists in E as (cb & Hin & Heq).
        apply Nat.eqb_eq in Heq. eauto.
      * intros Hnd. now apply roundComplete_covers.
    + rewrite (onData_incomplete _ _ _ Hc) in Hres. simpl in Hres. congruence.
  - rewrite (nth_error_app_Some _ Hp) in Hres. discriminate.
  - unfold elapse in Hres.
    pose proof (fireDue_promises (now w + dt)%N (timers w) (promises w) p) as HP.
    destruct (fireDue _ _ _) as [ts ps]. simpl in *.
    rewrite HP, Hp in Hres. simpl in Hres.
    destruct (existsb _ _); discriminate.
Qed.

Lemma release_requires_complete_round_witness :
  let w := fst (run (fresh ["A"; "B"])
                  [Connection 1; RequestResponses None; Data 1 "A"]) in
  promiseState w 0 = Some Pending
  /\ promiseState (fst (step w (Data 1 "B"))) 0 = Some Resolved
  /\ exists socket message,
       Data 1 "B" = Data socket message
       /\ completes w (Data 1 "B") = true
       /\ (exists cb, In cb (waitResponsesCbs (server w)) /\ cb_resolve cb = 0)
       /\ (NoDup (externalMspIds (server w)) ->
           forall x, In x (externalMspIds (server w)) ->
                     In x (mspResponses (server w))
                     \/ In x (split "-" message)).
Proof.
  intro w. split; [reflexivity|]. split; [reflexivity|].
  exact (release_requires_complete_round w (Data 1 "B") 0 eq_refl eq_refl).
Defined.




(** *** What the server sends *)

(** X8: the server writes nothing but "request" and "complete", and
    only to sockets that are connected; a message, a disconnection or
    the passing of time makes it write nothing, so a report is never
    acknowledged. *)
Theorem server_writes_only_to_connected_sockets :
  forall (w : World) (ev : Event) (socket : Socket) (message : string),
    In (Write socket message) (snd (step w ev)) ->
    In socket (clients (server (fst (step w ev))))
    /\ ((message = "request" /\ exists t, ev = RequestResponses t)
        \/ (message = "request" /\ ev = Connection socket
            /\ requesting (server w) = true)
        \/ (message = "complete" /\ ev = SendCompleted)).
Proof.
  intros w ev socket message Hin.
  destruct ev as [s|s m|s|t| |dt]; simpl in Hin.
  - destruct (requesting (server w)) eqn:Hq; [|contradiction].
    destruct Hin as [E|[]]. injection E as -> <-. split.
    + simpl. apply in_or_app. right. now left.
    + right. left. auto.
  - exfalso. unfold onData in Hin. destruct (roundComplete _ _); simpl in Hin;
      [|contradiction].
    apply in_map_iff in Hin as (cb & E & _). discriminate.
  - contradiction.
  - destruct Hin as [E|Hin]; [discriminate|].
    apply in_map_iff in Hin as (s' & E & Hs'). injection E as -> <-.
    split; [exact Hs'|]. left. eauto.
  - apply in_map_iff in Hin as (s' & E & Hs'). injection E as -> <-.
    split; [exact Hs'|]. right. right. auto.
  - exfalso. unfold elapse in Hin. destruct (fireDue _ _ _). contradiction.
Qed.

Lemma server_writes_only_to_connected_sockets_witness :
  let w := fst (run (fresh ["A"]) [Connection 1; Connection 2; End 1]) in
  In (Write 2 "complete") (snd (step w SendCompleted))
  /\ snd (step w SendCompleted) = [Write 2 "complete"]
  /\ snd (step w (Data 2 "A")) = []
  /\ In 2 (clients (server (fst (step w SendCompleted)))).
Proof.
  intro w.
  assert (Hin : In (Write 2 "complete") (snd (step w SendCompleted)))
    by (left; reflexivity).
  split; [exact Hin|]. split; [reflexivity|]. split; [reflexivity|].
  exact (proj1 (server_writes_only_to_connected_sockets
                  w SendCompleted 2 "complete" Hin)).
Defined.

(** *** Bookkeeping *)

(** X9: the callback list holds one callback per call of
    [requestResponses] ever made: whatever else happens, timeouts and
    completed rounds among it, its length grows by the number of calls
    and by nothing else. *)
Theorem one_callback_per_call_for_ever :
  forall (w : World) (evs : list Event),
    List.length (waitResponsesCbs (server (fst (run w evs))))
    = List.length (waitResponsesCbs (server w)) + requestCount evs.
Proof.
  intros w evs. revert w. induction evs as [|ev evs IH]; intros w.
  - simpl. lia.
  - rewrite run_cons, IH, step_waitResponsesCbs, length_app.
    destruct ev; simpl; lia.
Qed.

(** X10: a participant that connects and then disconnects leaves the
    server as it was before. *)
Theorem connect_then_end_restores :
  forall (w : World) (socket : Socket),
    ~ In socket (clients (server w)) ->
    fst (onEnd (fst (onConnection w socket)) socket) = w.
Proof.
  intros w socket Hn.
  pose proof (splice_indexOf_present socket (clients (server w)) [] Hn) as H.
  rewrite app_nil_r in H.
  destruct w as [[c e r cbs q] n ts ps l].
  unfold onEnd, onConnection, setServer.
  cbn [fst snd server clients externalMspIds mspResponses waitResponsesCbs
       requesting now timers promises listening] in *.
  do 2 f_equal. exact H.
Qed.

Lemma connect_then_end_restores_witness :
  let w := fst (run (fresh ["A"; "B"])
                  [Connection 1; RequestResponses None; Data 1 "A"]) in
  ~ In 2 (clients (server w))
  /\ fst (run w [Connection 2; End 2]) = w.
Proof.
  intro w.
  assert (Hn : ~ In 2 (clients (server w)))
    by (simpl; intuition discriminate).
  split; [exact Hn|].
  exact (connect_then_end_restores w 2 Hn).
Defined.

(** *** Rounds and the port *)

(** X18: rounds are independent.  Once a message has completed a
    round, what was reported before counts no more: with distinct
    expected identifiers, the next message completes the next round
    only if it names every one of them itself. *)
Theorem completed_round_forgets_reports :
  forall (w : World) (s s2 : Socket) (m m2 : string),
    completes w (Data s m) = true ->
    NoDup (externalMspIds (server w)) ->
    let w' := fst (onData w s m) in
    completes w' (Data s2 m2) = true
    <-> forall x, In x (externalMspIds (server w)) -> In x (split "-" m2).
Proof.
  intros w s s2 m m2 Hc Hnd w'. unfold w'.
  rewrite (onData_complete _ _ _ Hc). simpl.
  set (s' := mkServer (clients (server w)) (externalMspIds (server w)) []
                      (waitResponsesCbs (server w)) false).
  rewrite (roundComplete_covers s' m2 Hnd). simpl.
  split; intros H x Hx; specialize (H x Hx); tauto.
Qed.

Lemma completed_round_forgets_reports_witness :
  let w := fst (run (fresh ["A"; "B"]) [Connection 1; Data 1 "A"]) in
  completes w (Data 1 "B") = true
  /\ NoDup (externalMspIds (server w))
  /\ completes (fst (onData w 1 "B")) (Data 1 "B") = false
  /\ completes (fst (onData w 1 "B")) (Data 1 "B-A") = true.
Proof.
  intro w.
  assert (Hc : completes w (Data 1 "B") = true) by reflexivity.
  assert (Hnd : NoDup (externalMspIds (server w))).
  { simpl. repeat constructor; simpl; intuition discriminate. }
  split; [exact Hc|]. split; [exact Hnd|]. split; [reflexivity|].
  apply (completed_round_forgets_reports w 1 1 "B" "B-A" Hc Hnd).
  intros x [<-|[<-|[]]]; simpl; auto.
Defined.

Lemma step_listening (w : World) (ev : Event) :
  listening (fst (step w ev)) = listening w.
Proof.
  destruct ev; simpl; auto.
  - unfold onData. destruct (roundComplete _ _); simpl; [|reflexivity].
    now destruct (runCallbacks_frame (waitResponsesCbs (server w)) w)
      as (_ & _ & ->).
  - unfold elapse. now destruct (fireDue _ _ _).
Qed.

(** X19: a port that is not below 65536 makes construction fail and
    leaves no server.  Otherwise the server listens on the port given
    to the constructor, except that a port 0 is taken as no port: then,
    and when none is given, it listens on 45207.  The port listened on
    is never 0, is below 65536, and never changes. *)
Theorem listening_port_is_never_zero :
  forall (o : DistributedSetupChannelServerOpts) (t0 : N) (evs : list Event),
    ((65536 <= listenPort (opt_port o))%N ->
     forall w0, constructor o t0 <> inr w0)
    /\ (forall w0,
          constructor o t0 = inr w0 ->
          let w := fst (run w0 evs) in
          listening w <> 0%N
          /\ (listening w < 65536)%N
          /\ (forall p, opt_port o = Some p -> p <> 0%N -> listening w = p)
          /\ (opt_port o = None \/ opt_port o = Some 0%N ->
              listening w = 45207%N)).
Proof.
  intros o t0 evs. split.
  - intros Hp w0. unfold constructor.
    destruct (constructor_externalMspIds o); [discriminate|].
    apply N.ltb_ge in Hp. rewrite Hp. discriminate.
  - intros w0 Hc w.
    assert (Hl : listening w = listenPort (opt_port o)
                 /\ (listenPort (opt_port o) < 65536)%N).
    { unfold w. rewrite (run_invariant (fun x => listening x = listening w0));
        [| intros x ev Hx; now rewrite step_listening | reflexivity].
      unfold constructor in Hc.
      destruct (constructor_externalMspIds o); [discriminate|].
      destruct (N.ltb_spec (listenPort (opt_port o)) 65536) as [Hlt|Hge];
        [|discriminate].
      injection Hc as <-. split; [reflexivity | exact Hlt]. }
    destruct Hl as [-> Hlt]. split; [|split; [exact Hlt|split]].
    + unfold listenPort. destruct (opt_port o) as [p|]; [|discriminate].
      destruct (N.eqb_spec p 0); [discriminate | assumption].
    + intros p -> Hp. unfold listenPort.
      destruct (N.eqb_spec p 0); [contradiction | reflexivity].
    + intros [->| ->]; reflexivity.
Qed.

Lemma listening_port_is_never_zero_witness :
  let o := mkOpts None None (Some ["A"]) (Some 0%N) in
  let bad := mkOpts None None (Some ["A"]) (Some 65536%N) in
  let evs := [Connection 1; RequestResponses None; Data 1 "A"] in
  constructor o 0%N = inr (fresh ["A"])
  /\ listening (fst (run (fresh ["A"]) evs)) = 45207%N
  /\ (65536 <= listenPort (opt_port bad))%N
  /\ constructor bad 0%N = inl RANGE_ERROR
  /\ forall w0, constructor bad 0%N <> inr w0.
Proof.
  intros o bad evs.
  assert (Hc : constructor o 0%N = inr (fresh ["A"])) by reflexivity.
  assert (Hb : (65536 <= listenPort (opt_port bad))%N)
    by (apply N.leb_le; reflexivity).
  split; [exact Hc|]. split.
  { apply (proj2 (listening_port_is_never_zero o 0%N evs) (fresh ["A"]) Hc).
    right. reflexivity. }
  split; [exact Hb|]. split; [reflexivity|].
  exact (proj1 (listening_port_is_never_zero bad 0%N evs) Hb).
Defined.

End ChannelSetupServerMore.

(** ** Further properties of the fan-out operations *)

Module MultiUserClientMore.
Import Js JsFacts Fabric MultiUserClient MultiUserClientFacts.

(** *** The calls made *)

Lemma joinChannelCalls_spec (this : MultiUserClient) (channel : Channel)
  (opts : option JoinChannelOpts) :
  joinChannelCalls this channel opts
  = map (fun x => (fst x, ownedPeersJoinChannelOpts opts (snd x)))
        (filter nonEmpty
           (ownedPeersPerClient (userClients this)
              (filter isFcwPeer (getPeers channel)))).
Proof.
  unfold joinChannelCalls. now rewrite joinChannel_forEach_spec.
Qed.

Lemma installChaincodeCalls_spec (this : MultiUserClient)
  (req : ChaincodeInstallRequest) :
  installChaincodeCalls this req
  = map (fun x => (fst x, ownedPeersChaincodeInstallRequest req (snd x)))
        (filter nonEmpty
           (ownedPeersPerClient (userClients this)
              (filter isFcwPeer (cir_targets req)))).
Proof.
  unfold installChaincodeCalls. now rewrite installChaincode_forEach_spec.
Qed.

(** X11: [joinChannel] does not read the [targets] of its options: the
    peers asked to join are always taken from the channel. *)
Theorem joinChannel_ignores_targets_option :
  forall (this : MultiUserClient) (channel : Channel) (o : JoinChannelOpts)
         (t : option (list Peer)),
    joinChannel this channel (Some o)
    = joinChannel this channel
        (Some (mkJoinChannelOpts t (genesisBlock o) (timeout o)))
    /\ joinChannel this channel None
       = joinChannel this channel (Some (mkJoinChannelOpts t None None)).
Proof.
  intros this channel o t. unfold joinChannel.
  rewrite !joinChannelCalls_spec. split; reflexivity.
Qed.

(** X12: each call a fan-out operation makes goes to one of its
    clients, with a request that differs from the caller's in its
    targets only; the targets are not empty, and each is a wrapper peer
    among the caller's targets that the called client may administer.
    [installChaincode] hands its timeout on to every call. *)
Theorem sub_requests_differ_in_targets_only :
  forall (this : MultiUserClient) (channel : Channel)
         (opts : option JoinChannelOpts) (req : ChaincodeInstallRequest)
         (timeout : option N),
    (forall c,
        In c (joinChannelCalls this channel opts) ->
        In (fst c) (userClients this)
        /\ genesisBlock (snd c)
           = match opts with Some o => genesisBlock o | None => None end
        /\ Fabric.timeout (snd c)
           = match opts with Some o => Fabric.timeout o | None => None end
        /\ exists owned,
             targets (snd c) = Some owned
             /\ owned <> []
             /\ forall p, In p owned ->
                  In p (getPeers channel) /\ isFcwPeer p = true
                  /\ In (mspId (fst c)) (adminOwners p))
    /\ (forall c,
          In c (installChaincodeCalls this req) ->
          In (fst c) (userClients this)
          /\ snd c = mkChaincodeInstallRequest (cir_targets (snd c))
                       (chaincodeId req) (chaincodePath req)
                       (chaincodeVersion req) (chaincodePackage req)
                       (chaincodeType req)
          /\ cir_targets (snd c) <> []
          /\ (forall p, In p (cir_targets (snd c)) ->
                In p (cir_targets req) /\ isFcwPeer p = true
                /\ In (mspId (fst c)) (adminOwners p))
          /\ In (CallInstallChaincode (fst c) (snd c) timeout)
                (fst (installChaincode this req timeout))).
Proof.
  intros this channel opts req timeout.
  assert (Hpart : forall targets x,
            In x (filter nonEmpty
                    (ownedPeersPerClient (userClients this)
                       (filter isFcwPeer targets))) ->
            In (fst x) (userClients this)
            /\ snd x <> []
            /\ forall p, In p (snd x) ->
                 In p targets /\ isFcwPeer p = true
                 /\ In (mspId (fst x)) (adminOwners p)).
  { intros tg x Hx. apply filter_In in Hx as [Hx Hne].
    split; [|split].
    - destruct x as [uc [|p owned]]; [discriminate|].
      exact (proj1 (ownedPeersPerClient_In _ _ _ p Hx (or_introl eq_refl))).
    - unfold nonEmpty in Hne.
      destruct (snd x); simpl in Hne; [discriminate Hne | discriminate].
    - intros p Hp.
      destruct (ownedPeersPerClient_In _ _ _ _ Hx Hp) as (_ & Hin & Ha).
      apply filter_In in Hin as [Hin Hf].
      repeat split; auto. now apply administers_adminOwners. }
  split.
  - intros c Hc. rewrite joinChannelCalls_spec in Hc.
    apply in_map_iff in Hc as (x & <- & Hx).
    destruct (Hpart _ x Hx) as (H1 & H2 & H3). simpl.
    split; [exact H1|]. split; [now destruct opts|]. split; [now destruct opts|].
    exists (snd x). split; [now destruct opts|]. auto.
  - intros c Hc. pose proof Hc as Hc'.
    rewrite installChaincodeCalls_spec in Hc.
    apply in_map_iff in Hc as (x & <- & Hx).
    destruct (Hpart _ x Hx) as (H1 & H2 & H3). simpl.
    repeat split; auto; try (now apply H3).
    clear -Hc'.
    now apply (in_map (fun c => CallInstallChaincode (fst c) (snd c) timeout))
      in Hc'.
Qed.

Lemma sub_requests_differ_in_targets_only_witness :
  let org1 := mkUserClient "Org1MSP" (fun _ _ => Never) (fun _ _ => Never) in
  let org2 := mkUserClient "Org2MSP" (fun _ _ => Never) (fun _ _ => Never) in
  let p1 := FcwPeer "peer0.org1" "Org1MSP" ["Org1MSP"] in
  let p2 := FcwPeer "peer0.org2" "Org2MSP" ["Org2MSP"] in
  let channel := mkChannel "mychannel" [p1; PlainPeer "orderer"; p2] in
  let opts := mkJoinChannelOpts (Some [p1]) (Some "block0") (Some 5000%N) in
  let this := constructor [org1; org2] None in
  let c := (org2, mkJoinChannelOpts (Some [p2]) (Some "block0") (Some 5000%N)) in
  In c (joinChannelCalls this channel (Some opts))
  /\ In (fst c) (userClients this)
  /\ genesisBlock (snd c) = Some "block0"
  /\ Fabric.timeout (snd c) = Some 5000%N.
Proof.
  intros org1 org2 p1 p2 channel opts this c.
  assert (Hc : In c (joinChannelCalls this channel (Some opts)))
    by (right; left; reflexivity).
  destruct (sub_requests_differ_in_targets_only this channel (Some opts)
              (mkChaincodeInstallRequest [] "cc" "path" "v1" None None) None)
    as [Hj _].
  destruct (Hj c Hc) as (H1 & H2 & H3 & _).
  split; [exact Hc|]. split; [exact H1|]. split; [exact H2 | exact H3].
Defined.

(** *** The clients called *)

Lemma ownedPeersPerClient_clients (ucs : list UserClient) (peers : list Peer) :
  map fst (ownedPeersPerClient ucs peers) = ucs.
Proof.
  revert peers. induction ucs as [|uc rest IH]; intros peers; simpl;
    [reflexivity | now rewrite IH].
Qed.

Lemma Subseq_filter_map {A B} (f : A -> B) (keep : A -> bool) (l : list A) :
  Subseq (map f (filter keep l)) (map f l).
Proof.
  induction l as [|x l IH]; simpl; [constructor|].
  destruct (keep x); simpl; now constructor.
Qed.

(** A client whose organization an earlier client has takes nothing. *)
Lemma ownedPeersPerClient_same_org (ucs : list UserClient) (peers : list Peer) :
  ForallOrdPairs (fun a b => mspId (fst a) = mspId (fst b) -> snd b = [])
                 (ownedPeersPerClient ucs peers).
Proof.
  revert peers. induction ucs as [|uc rest IH]; intros peers; simpl;
    constructor; [|apply IH].
  apply Forall_forall. intros x Hx Heq. simpl in Heq.
  destruct (snd x) as [|p owned] eqn:E; [reflexivity|]. exfalso.
  destruct (ownedPeersPerClient_In _ _ x p Hx) as (_ & Hin & Ha).
  { rewrite E. now left. }
  apply filter_In in Hin as [_ Hin]. rewrite Heq, Ha in Hin. discriminate.
Qed.

Lemma called_orgs_NoDup (l : list (UserClient * list Peer)) :
  ForallOrdPairs (fun a b => mspId (fst a) = mspId (fst b) -> snd b = []) l ->
  NoDup (map (fun x => mspId (fst x)) (filter nonEmpty l)).
Proof.
  induction 1 as [|a l Ha Hl IH]; simpl; [constructor|].
  destruct (nonEmpty a) eqn:Hne; [|exact IH].
  simpl. constructor; [|exact IH].
  intros Hin. apply in_map_iff in Hin as (b & Heq & Hb).
  apply filter_In in Hb as [Hb Hnb]. rewrite Forall_forall in Ha.
  unfold nonEmpty in Hnb. rewrite (Ha b Hb (eq_sym Heq)) in Hnb.
  discriminate.
Qed.

(** X13: the clients a fan-out operation calls are clients of the
    object, in their order, each called once at most, and no two of
    them of one organization. *)
Theorem called_clients_are_distinct_organizations :
  forall (this : MultiUserClient) (channel : Channel)
         (opts : option JoinChannelOpts) (req : ChaincodeInstallRequest),
    Subseq (map fst (joinChannelCalls this channel opts)) (userClients this)
    /\ NoDup (map (fun c => mspId (fst c)) (joinChannelCalls this channel opts))
    /\ Subseq (map fst (installChaincodeCalls this req)) (userClients this)
    /\ NoDup (map (fun c => mspId (fst c)) (installChaincodeCalls this req)).
Proof.
  intros this channel opts req.
  rewrite joinChannelCalls_spec, installChaincodeCalls_spec, !map_map.
  simpl.
  repeat split.
  - rewrite <- (ownedPeersPerClient_clients (userClients this)
                  (filter isFcwPeer (getPeers channel))) at 2.
    apply Subseq_filter_map.
  - apply called_orgs_NoDup, ownedPeersPerClient_same_org.
  - rewrite <- (ownedPeersPerClient_clients (userClients this)
                  (filter isFcwPeer (cir_targets req))) at 2.
    apply Subseq_filter_map.
  - apply called_orgs_NoDup, ownedPeersPerClient_same_org.
Qed.

(** *** The parts in closed form *)

Lemma filter_filter_andb {A} (f g : A -> bool) (l : list A) :
  filter f (filter g l) = filter (fun x => f x && g x) l.
Proof.
  induction l as [|x l IH]; simpl; [reflexivity|].
  destruct (g x); simpl; rewrite ?andb_true_r, ?andb_false_r.
  - destruct (f x); now rewrite IH.
  - exact IH.
Qed.

Lemma ownedPeersPerClient_closed (ucs : list UserClient) (peers : list Peer)
  (x : UserClient * list Peer) :
  In x (ownedPeersPerClient ucs peers)
  <-> exists before after,
        ucs = before ++ fst x :: after
        /\ snd x = filter (fun p => administers (mspId (fst x)) p
                                    && negb (administrable before p)) peers.
Proof.
  revert peers. induction ucs as [|uc rest IH]; intros peers; simpl.
  - split; [contradiction|]. intros (b & a & E & _). now destruct b.
  - split.
    + intros [<-|Hx].
      * exists [], rest. split; [reflexivity|]. simpl.
        apply filter_ext. intros p. now rewrite andb_true_r.
      * apply IH in Hx as (b & a & -> & Hs). exists (uc :: b), a.
        split; [reflexivity|]. rewrite Hs, filter_filter_andb.
        apply filter_ext. intros p. simpl.
        rewrite negb_orb, <- andb_assoc. f_equal. apply andb_comm.
    + intros (b & a & E & Hs). destruct b as [|c b]; simpl in E.
      * injection E as -> _. left. destruct x as [u o]. simpl in *.
        f_equal. rewrite Hs. apply filter_ext. intros p.
        now rewrite andb_true_r.
      * injection E as -> ->. right. apply IH. exists b, a.
        split; [reflexivity|]. rewrite Hs, filter_filter_andb.
        apply filter_ext. intros p. simpl.
        rewrite negb_orb, <- andb_assoc. f_equal. apply andb_comm.
Qed.

Lemma administers_isFcwPeer (m : string) (p : Peer) :
  administers m p = true -> isFcwPeer p = true.
Proof. destruct p; simpl; [discriminate | reflexivity]. Qed.

Lemma nonEmpty_iff (x : UserClient * list Peer) :
  nonEmpty x = true <-> snd x <> [].
Proof.
  unfold nonEmpty. destruct (snd x) as [|p l]; simpl.
  - split; [discriminate | intros H; now elim H].
  - split; [intros _; discriminate | reflexivity].
Qed.

Lemma partitions_closed (ucs : list UserClient) (targets : list Peer)
  (x : UserClient * list Peer) :
  In x (filter nonEmpty (ownedPeersPerClient ucs (filter isFcwPeer targets)))
  <-> snd x <> []
      /\ exists before after,
           ucs = before ++ fst x :: after
           /\ snd x = filter (fun p => administers (mspId (fst x)) p
                                       && negb (administrable before p))
                             targets.
Proof.
  rewrite filter_In, nonEmpty_iff, ownedPeersPerClient_closed.
  assert (E : forall before,
            filter (fun p => administers (mspId (fst x)) p
                             && negb (administrable before p))
                   (filter isFcwPeer targets)
            = filter (fun p => administers (mspId (fst x)) p
                               && negb (administrable before p)) targets).
  { intros before. rewrite filter_filter_andb. apply filter_ext. intros p.
    destruct (administers (mspId (fst x)) p) eqn:Ha; [|reflexivity].
    rewrite (administers_isFcwPeer _ _ Ha). now rewrite andb_true_r. }
  split.
  - intros [(b & a & H1 & H2) Hne]. split; [exact Hne|].
    exists b, a. split; [exact H1|]. now rewrite <- E.
  - intros [Hne (b & a & H1 & H2)]. split; [|exact Hne].
    exists b, a. split; [exact H1|]. now rewrite E.
Qed.

(** X14: the parts in closed form.  A client is handed a part exactly
    when some target is administrable by it and by no client before it,
    and its part lists those targets, all of them, in the order of the
    target list. *)
Theorem partitions_in_closed_form :
  forall (this : MultiUserClient) (channel : Channel)
         (opts : option JoinChannelOpts) (req : ChaincodeInstallRequest)
         (x : UserClient * list Peer),
    (In x (joinChannelPartitions this channel opts)
     <-> snd x <> []
         /\ exists before after,
              userClients this = before ++ fst x :: after
              /\ snd x = filter (fun p => administers (mspId (fst x)) p
                                          && negb (administrable before p))
                                (getPeers channel))
    /\ (In x (installChaincodePartitions this req)
        <-> snd x <> []
            /\ exists before after,
                 userClients this = before ++ fst x :: after
                 /\ snd x = filter (fun p => administers (mspId (fst x)) p
                                             && negb (administrable before p))
                                   (cir_targets req)).
Proof.
  intros this channel opts req x.
  rewrite joinChannelPartitions_spec, installChaincodePartitions_spec.
  split; apply partitions_closed.
Qed.

Lemma partitions_in_closed_form_witness :
  let org1 := mkUserClient "Org1MSP" (fun _ _ => Never) (fun _ _ => Never) in
  let org2 := mkUserClient "Org2MSP" (fun _ _ => Never) (fun _ _ => Never) in
  let p1 := FcwPeer "peer0.org1" "Org1MSP" ["Org1MSP"] in
  let p2 := FcwPeer "peer0.org2" "Org2MSP" ["Org2MSP"; "Org1MSP"] in
  let p3 := FcwPeer "peer1.org2" "Org2MSP" ["Org2MSP"] in
  let channel := mkChannel "mychannel" [p3; p1; p2; p3] in
  let this := constructor [org1; org2] None in
  In (org2, [p3; p3]) (joinChannelPartitions this channel None)
  /\ ~ In (org2, [p2; p3]) (joinChannelPartitions this channel None).
Proof.
  intros org1 org2 p1 p2 p3 channel this.
  pose (req := mkChaincodeInstallRequest [] "cc" "path" "v1" None None).
  split.
  - apply (partitions_in_closed_form this channel None req (org2, [p3; p3])).
    split; [discriminate|]. exists [org1], []. split; reflexivity.
  - intros H.
    apply (partitions_in_closed_form this channel None req (org2, [p2; p3]))
      in H as [_ (b & a & E & Hs)].
    destruct b as [|c [|c' b]]; simpl in E, Hs.
    + discriminate E.
    + injection E as E1 _. rewrite <- E1 in Hs. discriminate Hs.
    + injection E as _ _ E3. now destruct b.
Defined.

(** *** Nothing lost, nothing doubled *)

Lemma filter_split_Permutation {A} (f : A -> bool) (l : list A) :
  Permutation (filter f l ++ filter (fun x => negb (f x)) l) l.
Proof.
  induction l as [|x l IH]; simpl; [constructor|].
  destruct (f x); simpl.
  - now constructor.
  - apply Permutation_sym, Permutation_cons_app, Permutation_sym, IH.
Qed.

Lemma ownedPeersPerClient_conserves (ucs : list UserClient) (peers : list Peer) :
  Permutation
    (List.concat (map snd (ownedPeersPerClient ucs peers))
     ++ filter (fun p => negb (administrable ucs p)) peers)
    peers.
Proof.
  revert peers. induction ucs as [|uc rest IH]; intros peers; simpl.
  - induction peers as [|p l IHl]; simpl; [constructor|].
    now constructor.
  - rewrite <- app_assoc.
    eapply Permutation_trans;
      [|apply (filter_split_Permutation (administers (mspId uc)) peers)].
    apply Permutation_app_head.
    eapply Permutation_trans; [|apply IH].
    apply Permutation_app_head. rewrite filter_filter_andb.
    erewrite filter_ext; [reflexivity|].
    intros p. simpl. rewrite negb_orb. apply andb_comm.
Qed.

Lemma concat_filter_nonEmpty (l : list (UserClient * list Peer)) :
  List.concat (map snd (filter nonEmpty l)) = List.concat (map snd l).
Proof.
  induction l as [|[uc owned] l IH]; simpl; [reflexivity|].
  unfold nonEmpty at 1. simpl. destruct owned; simpl; [exact IH|].
  now rewrite IH.
Qed.

Lemma partitions_conserve (ucs : list UserClient) (targets : list Peer) :
  Permutation
    (List.concat (map snd (filter nonEmpty
                        (ownedPeersPerClient ucs (filter isFcwPeer targets)))))
    (filter (administrable ucs) targets).
Proof.
  rewrite concat_filter_nonEmpty.
  apply (Permutation_app_inv_r
           (filter (fun p => negb (administrable ucs p))
                   (filter isFcwPeer targets))).
  eapply Permutation_trans; [apply ownedPeersPerClient_conserves|].
  assert (E : filter (administrable ucs) targets
              = filter (administrable ucs) (filter isFcwPeer targets)).
  { rewrite filter_filter_andb. apply filter_ext. intros p.
    destruct (administrable ucs p) eqn:Ha; [|reflexivity].
    unfold administrable in Ha. apply existsb_exists in Ha as (uc & _ & Ha).
    now rewrite (administers_isFcwPeer _ _ Ha). }
  rewrite E. apply Permutation_sym, filter_split_Permutation.
Qed.

(** X15: taken together, the parts hold the targets some client may
    administer, each as often as the target list has it: no target is
    lost and none is handed out twice. *)
Theorem partitions_conserve_targets :
  forall (this : MultiUserClient) (channel : Channel)
         (opts : option JoinChannelOpts) (req : ChaincodeInstallRequest),
    Permutation
      (List.concat (map snd (joinChannelPartitions this channel opts)))
      (filter (administrable (userClients this)) (getPeers channel))
    /\ Permutation
         (List.concat (map snd (installChaincodePartitions this req)))
         (filter (administrable (userClients this)) (cir_targets req)).
Proof.
  intros this channel opts req.
  rewrite joinChannelPartitions_spec, installChaincodePartitions_spec.
  split; apply partitions_conserve.
Qed.

(** *** Nothing to do *)

Lemma partitions_nil (ucs : list UserClient) (targets : list Peer) :
  forallb (fun p => negb (administrable ucs p)) targets = true ->
  filter nonEmpty (ownedPeersPerClient ucs (filter isFcwPeer targets)) = [].
Proof.
  intros Hnone.
  destruct (filter nonEmpty _) as [|x l] eqn:E; [reflexivity|]. exfalso.
  assert (Hx : In x (filter nonEmpty
                       (ownedPeersPerClient ucs (filter isFcwPeer targets))))
    by (rewrite E; now left).
  apply filter_In in Hx as [Hx Hne]. unfold nonEmpty in Hne.
  destruct (snd x) as [|p owned] eqn:Es; [discriminate|].
  destruct (ownedPeersPerClient_In _ _ x p Hx) as (Hc & Hin & Ha).
  { rewrite Es. now left. }
  apply filter_In in Hin as [Hin _].
  rewrite forallb_forall in Hnone. specialize (Hnone p Hin).
  apply Bool.negb_true_iff in Hnone.
  assert (administrable ucs p = true); [|congruence].
  apply existsb_exists. eauto.
Qed.

(** X16: when no client may administer any target (no clients, no
    targets, or none that match), a fan-out operation calls nobody and
    is fulfilled at once with empty data; the [wait] of [joinChannel]'s
    result is then fulfilled at once too, with nothing. *)
Theorem nothing_administrable_is_a_silent_success :
  forall (this : MultiUserClient) (channel : Channel)
         (opts : option JoinChannelOpts) (req : ChaincodeInstallRequest)
         (timeout : option N),
    (forallb (fun p => negb (administrable (userClients this) p))
             (getPeers channel) = true ->
     joinChannel this channel opts
     = ([], Settles 0 (Fulfilled
              (mkAggregate []
                 (Some (fun _ => ([], Settles 0 (Fulfilled []))))))))
    /\ (forallb (fun p => negb (administrable (userClients this) p))
                (cir_targets req) = true ->
        installChaincode this req timeout
        = ([], Settles 0 (Fulfilled (mkAggregate [] None)))).
Proof.
  intros this channel opts req timeout. split; intros Hnone.
  - unfold joinChannel. rewrite joinChannelCalls_spec.
    now rewrite (partitions_nil _ _ Hnone).
  - unfold installChaincode. rewrite installChaincodeCalls_spec.
    now rewrite (partitions_nil _ _ Hnone).
Qed.

Lemma nothing_administrable_is_a_silent_success_witness :
  let org1 := mkUserClient "Org1MSP" (fun _ _ => Settles 1 (Rejected "no"))
                (fun _ _ => Settles 1 (Rejected "no")) in
  let p2 := FcwPeer "peer0.org2" "Org2MSP" ["Org2MSP"] in
  let channel := mkChannel "mychannel" [p2; PlainPeer "orderer"] in
  let req := mkChaincodeInstallRequest [] "cc" "path" "v1" None None in
  forallb (fun p => negb (administrable [org1] p)) (getPeers channel) = true
  /\ forallb (fun p => negb (administrable [] p)) (getPeers channel) = true
  /\ fst (joinChannel (constructor [org1] None) channel None) = []
  /\ fst (joinChannel (constructor [] None) channel None) = []
  /\ installChaincode (constructor [org1] None) req None
     = ([], Settles 0 (Fulfilled (mkAggregate [] None))).
Proof.
  intros org1 p2 channel req.
  split; [reflexivity|]. split; [reflexivity|].
  destruct (nothing_administrable_is_a_silent_success
              (constructor [org1] None) channel None req None) as [H1 H2].
  destruct (nothing_administrable_is_a_silent_success
              (constructor [] None) channel None req None) as [H3 _].
  split; [now rewrite (H1 eq_refl)|].
  split; [now rewrite (H3 eq_refl)|].
  exact (H2 eq_refl).
Defined.

(** *** When the calls settle *)

Lemma firstRejection_none_intro {V} (ps : list (Promise V)) :
  (forall m e, ~ In (Settles m (Rejected e)) ps) ->
  firstRejection ps = None.
Proof.
  intros H. destruct (firstRejection ps) as [[n e]|] eqn:E; [|reflexivity].
  exfalso. apply firstRejection_Some in E as [E _]. exact (H _ _ E).
Qed.

Lemma allFulfilled_Never {V} (ps : list (Promise V)) :
  In Never ps -> allFulfilled ps = None.
Proof.
  induction ps as [|p t IH]; intros Hin; [contradiction|]. simpl.
  destruct p as [|k [e|v]]; try reflexivity.
  destruct Hin as [E|Hin]; [discriminate|]. now rewrite (IH Hin).
Qed.

Lemma Promise_all_hangs {V} (ps : list (Promise V)) :
  In Never ps ->
  (forall m e, ~ In (Settles m (Rejected e)) ps) ->
  Promise_all ps = Never.
Proof.
  intros Hn Hr. unfold Promise_all.
  now rewrite (firstRejection_none_intro ps Hr), (allFulfilled_Never ps Hn).
Qed.

(** X17: [joinChannel] and [installChaincode] have no deadline of
    their own: when one of the calls made never settles and none is
    rejected, the operation never settles either. *)
Theorem fan_out_hangs_with_a_call_that_never_settles :
  forall (this : MultiUserClient) (channel : Channel)
         (opts : option JoinChannelOpts) (req : ChaincodeInstallRequest)
         (timeout : option N),
    ((exists c, In c (joinChannelCalls this channel opts)
                /\ uc_joinChannel (fst c) channel (snd c) = Never) ->
     (forall c m e, In c (joinChannelCalls this channel opts) ->
                    uc_joinChannel (fst c) channel (snd c)
                    <> Settles m (Rejected e)) ->
     snd (joinChannel this channel opts) = Never)
    /\ ((exists c, In c (installChaincodeCalls this req)
                   /\ uc_installChaincode (fst c) (snd c) timeout = Never) ->
        (forall c m e, In c (installChaincodeCalls this req) ->
                       uc_installChaincode (fst c) (snd c) timeout
                       <> Settles m (Rejected e)) ->
        snd (installChaincode this req timeout) = Never).
Proof.
  intros this channel opts req timeout. split.
  - intros (c & Hc & Hn) Hr. unfold joinChannel. simpl.
    rewrite Promise_all_hangs; [reflexivity | |].
    + rewrite <- Hn.
      now apply (in_map (fun c => uc_joinChannel (fst c) channel (snd c))).
    + intros m e Hin. apply in_map_iff in Hin as (c' & E & Hc').
      exact (Hr c' m e Hc' E).
  - intros (c & Hc & Hn) Hr. unfold installChaincode. simpl.
    rewrite Promise_all_hangs; [reflexivity | |].
    + rewrite <- Hn.
      now apply (in_map (fun c => uc_installChaincode (fst c) (snd c) timeout)).
    + intros m e Hin. apply in_map_iff in Hin as (c' & E & Hc').
      exact (Hr c' m e Hc' E).
Qed.

Lemma fan_out_hangs_with_a_call_that_never_settles_witness :
  let ok := Settles 2 (Fulfilled (mkInstallChaincodeResponse "ok")) in
  let org1 := mkUserClient "Org1MSP" (fun _ _ => Never) (fun _ _ => ok) in
  let org2 := mkUserClient "Org2MSP" (fun _ _ => Never) (fun _ _ => Never) in
  let p1 := FcwPeer "peer0.org1" "Org1MSP" ["Org1MSP"] in
  let p2 := FcwPeer "peer0.org2" "Org2MSP" ["Org2MSP"] in
  let req := mkChaincodeInstallRequest [p1; p2] "cc" "path" "v1" None None in
  let this := constructor [org1; org2] None in
  let c2 := (org2, mkChaincodeInstallRequest [p2] "cc" "path" "v1" None None) in
  In c2 (installChaincodeCalls this req)
  /\ uc_installChaincode (fst c2) (snd c2) (Some 10%N) = Never
  /\ snd (installChaincode this req (Some 10%N)) = Never.
Proof.
  intros ok org1 org2 p1 p2 req this c2.
  assert (Hc : In c2 (installChaincodeCalls this req))
    by (right; left; reflexivity).
  split; [exact Hc|]. split; [reflexivity|].
  apply (fan_out_hangs_with_a_call_that_never_settles this
           (mkChannel "mychannel" []) None req (Some 10%N)).
  - exists c2. split; [exact Hc | reflexivity].
  - intros c m e [<-|[<-|[]]]; discriminate.
Defined.

End MultiUserClientMore.
